(** * Batch notification dispatcher: [src/app/api/resend/post/route.ts]

    A shallow embedding of the route handler [POST] and of the pieces it is
    made of: the resolution of a ticket's user, the group-by loop over the
    JavaScript object [usersToEmail], [Object.values], the asynchronous
    per-user callback, [Promise.allSettled] and the final partition of the
    settled results into [results.success] and [results.failed].

    Conventions.
    - A JavaScript string is a [string]; one character stands for one code
      unit.  [String.prototype.toUpperCase] and [JSON.stringify] belong to
      the engine and are taken from a [JsRuntime] instance.
    - A JavaScript number holding a database identifier is a [Z]; [String]
      of it is its decimal numeral.
    - The two collaborators are the e-mail provider and the data store.
      What they answer to the promise at a given position is given by an
      [Env]; when the answers arrive is given by a schedule, a list of
      positions.  The provider answers with a message identifier or with
      an error object, never with both or neither; neither collaborator
      throws; an update that the store refuses changes no row.
    - The column [tickets.email_send] is a [gmap Z bool] from [id_tickets]
      to the flag. *)

From stdpp Require Import base decidable option numbers list strings pretty
  sorting gmap.
From Stdlib Require Import Ascii.

Local Open Scope string_scope.
Local Open Scope list_scope.
Local Open Scope Z_scope.

(** ** JavaScript strings *)

Module Js.

(** [!s] is false exactly for the empty string. *)
Definition truthy (s : string) : bool :=
  match s with EmptyString => false | String _ _ => true end.

(** [a || b] on strings. *)
Definition or_else (a b : string) : string := if truthy a then a else b.

(** [s.charAt(0)] *)
Definition charAt0 (s : string) : string :=
  match s with EmptyString => EmptyString | String c _ => String c EmptyString end.

(** [s.slice(start)] for a non-negative [start]. *)
Fixpoint slice (start : nat) (s : string) : string :=
  match start, s with
  | O, _ => s
  | S n, String _ r => slice n r
  | S _, EmptyString => EmptyString
  end.

(** The first [n] characters of [s] (all of it when it is shorter). *)
Fixpoint take (n : nat) (s : string) : string :=
  match n, s with
  | S m, String c r => String c (take m r)
  | _, _ => EmptyString
  end.

(** [n] copies of [pad], one after the other. *)
Fixpoint repeat (n : nat) (pad : string) : string :=
  match n with O => EmptyString | S m => pad +:+ repeat m pad end.

(** [s.padStart(targetLength, pad)]: nothing happens when [s] is already
    long enough or [pad] is empty; otherwise [pad] is repeated and cut to
    the missing length, and put in front. *)
Definition padStart (targetLength : nat) (pad : string) (s : string) : string :=
  let len := String.length s in
  if (targetLength <=? len)%nat || negb (truthy pad) then s
  else
    let fill := (targetLength - len)%nat in
    take fill (repeat fill pad) +:+ s.

(** [l.join(sep)] *)
Fixpoint join (sep : string) (l : list string) : string :=
  match l with
  | [] => EmptyString
  | [x] => x
  | x :: r => x +:+ sep +:+ join sep r
  end.

(** [String(n)] for an integer [n]: its decimal numeral, with a leading
    minus sign for a negative one. *)
Definition String_of_number (n : Z) : string := pretty n.

(** [String(s)] for a string is [s] itself. *)
Definition String_of_string (s : string) : string := s.

End Js.

(** ** Own properties of an object, in the order the engine enumerates them *)

Module JsObject.

(** An object as its own string-keyed properties in creation order. *)
Abbreviation t V := (list (string * V)) (only parsing).

Section obj.
Context {V : Type}.

Definition get (k : string) (o : t V) : option V :=
  snd <$> List.find (λ kv, bool_decide (kv.1 = k)) o.

(** [o[k] = v]: an existing property keeps its place, a new one goes
    last. *)
Fixpoint set (k : string) (v : V) (o : t V) : t V :=
  match o with
  | [] => [(k, v)]
  | (k', v') :: r =>
      if bool_decide (k' = k) then (k', v) :: r else (k', v') :: set k v r
  end.

Definition digit_of (c : ascii) : option N :=
  let n := N_of_ascii c in
  if ((48 <=? n) && (n <=? 57))%N then Some (n - 48)%N else None.

Fixpoint parse_digits (acc : N) (s : string) : option N :=
  match s with
  | EmptyString => Some acc
  | String c r =>
      match digit_of c with
      | Some d => parse_digits (10 * acc + d)%N r
      | None => None
      end
  end.

(** A property key is an array index when it is the canonical decimal
    numeral of an integer between 0 and 2^32 - 2. *)
Definition array_index (k : string) : option N :=
  match k with
  | EmptyString => None
  | String c r =>
      if bool_decide (c = "0"%char) && Js.truthy r then None
      else
        match parse_digits 0 k with
        | Some n => if (n <? 2 ^ 32 - 1)%N then Some n else None
        | None => None
        end
  end.

Definition index_le (a b : N * V) : Prop := (a.1 ≤ b.1)%N.

Global Instance index_le_dec : RelDecision index_le.
Proof. intros a b. unfold index_le. apply _. Defined.

(** The array-index properties, each with its index. *)
Fixpoint indexed (o : t V) : list (N * V) :=
  match o with
  | [] => []
  | (k, v) :: r =>
      match array_index k with
      | Some n => (n, v) :: indexed r
      | None => indexed r
      end
  end.

(** The other properties. *)
Fixpoint named (o : t V) : list V :=
  match o with
  | [] => []
  | (k, v) :: r =>
      match array_index k with
      | Some _ => named r
      | None => v :: named r
      end
  end.

(** [Object.values(o)]: array-index keys first, in ascending numeric
    order, then the remaining keys in creation order. *)
Definition values (o : t V) : list V :=
  (snd <$> merge_sort index_le (indexed o)) ++ named o.

End obj.

End JsObject.

(** ** Rows returned by the data store *)

Record UserData := {
  id_user : Z;
  name : string;
  email : option string;   (* [None] is a null column *)
  id_card : string;
}.

(** A relation embedded in a row comes back as one object, as an array of
    them, or as null. *)
Inductive Embedded (A : Type) :=
  | EmbNull
  | EmbOne (a : A)
  | EmbArray (l : list A).
Arguments EmbNull {A}.
Arguments EmbOne {A} a.
Arguments EmbArray {A} l.

Record PayData := {
  id_pay : Z;
  validated : bool;
  user_data : Embedded UserData;
}.

Record TicketData := {
  id_tickets : Z;
  tickets : string;
  email_send : bool;
  pay_data : Embedded PayData;
}.

(** [Array.isArray(x) ? x[0] : x], where a missing element and null both
    count as no value. *)
Definition first_or_self {A} (x : Embedded A) : option A :=
  match x with
  | EmbNull => None
  | EmbOne a => Some a
  | EmbArray l => head l
  end.

(** The [user] the loop computes for a ticket:
    [payData?.user_data] then the first element or the value itself. *)
Definition resolve_user (ticket : TicketData) : option UserData :=
  match first_or_self (pay_data ticket) with
  | None => None
  | Some payData => first_or_self (user_data payData)
  end.

(** ** Grouping *)

Record UserGroup := {
  ug_id_user : Z;
  ug_name : string;
  ug_email : option string;
  ug_id_card : string;
  ug_tickets : list TicketData;
}.

Definition push_ticket (ticket : TicketData) (g : UserGroup) : UserGroup :=
  {| ug_id_user := ug_id_user g; ug_name := ug_name g; ug_email := ug_email g;
     ug_id_card := ug_id_card g; ug_tickets := ug_tickets g ++ [ticket] |}.

(** One iteration of [for (const ticket of ticketsData)]. *)
Definition group_step (usersToEmail : JsObject.t UserGroup) (ticket : TicketData)
  : JsObject.t UserGroup :=
  match resolve_user ticket with
  | None => usersToEmail                                    (* continue *)
  | Some user =>
      let groupKey := Js.String_of_number (id_user user) in
      let usersToEmail1 :=
        match JsObject.get groupKey usersToEmail with
        | None =>
            JsObject.set groupKey
              {| ug_id_user := id_user user; ug_name := name user;
                 ug_email := email user; ug_id_card := id_card user;
                 ug_tickets := [] |} usersToEmail
        | Some _ => usersToEmail
        end in
      match JsObject.get groupKey usersToEmail1 with
      | Some g => JsObject.set groupKey (push_ticket ticket g) usersToEmail1
      | None => usersToEmail1
      end
  end.

Definition group_tickets (ticketsData : list TicketData) : JsObject.t UserGroup :=
  foldl group_step [] ticketsData.


(** ** The two collaborators *)

(** The provider answers [{ data, error }] with exactly one of the two set:
    the identifier it gave the message, or an error object. *)
Record CreateEmailResponseSuccess := { sent_id : string }.

Record ErrorResponse := { message : string; error_name : string }.

Inductive SendResponse :=
  | SendData (sentEmail : CreateEmailResponseSuccess)
  | SendError (sendError : ErrorResponse).

Record PostgrestError := { pg_message : string }.

(** What the engine supplies. *)
Class JsRuntime := {
  toUpperCase : string → string;
  JSON_stringify : ErrorResponse → string;
}.

(** The props handed to the [TicketEmail] template. *)
Record TicketEmailProps := {
  props_name : string;
  props_tickets : string;
  ticketCount : nat;
  cardId : string;
}.

(** The argument of [resend.emails.send]. *)
Record EmailPayload := {
  mail_from : string;
  mail_to : string;
  mail_subject : string;
  mail_react : TicketEmailProps;
}.

(** ** The report *)

Record SuccessEntry := { success_id_user : Z; email_id : string }.

Record FailedEntry := { failed_id_user : Z; error : string }.

Record Results := { success : list SuccessEntry; failed : list FailedEntry }.

(** ** Asynchronous computations

    An [async] function body, cut at its [await]s: it returns, throws, or
    waits for one of the two collaborators and goes on with the answer. *)

Inductive Async (A : Type) :=
  | Return (a : A)
  | Throw (reason : FailedEntry)
  | AwaitSend (payload : EmailPayload) (k : SendResponse → Async A)
  | AwaitUpdate (ids : list Z) (k : option PostgrestError → Async A).
Arguments Return {A} a.
Arguments Throw {A} reason.
Arguments AwaitSend {A} payload k.
Arguments AwaitUpdate {A} ids k.

Notation "'let!' x ':=' 'resend_emails_send' p 'in' k" :=
  (AwaitSend p (λ x, k)) (at level 10, x pattern, k at level 200, only parsing).
Notation "'let!' x ':=' 'supabase_update_in' ids 'in' k" :=
  (AwaitUpdate ids (λ x, k)) (at level 10, x pattern, k at level 200, only parsing).

(** The object the callback returns by itself. *)
Inductive Inner :=
  | InnerRejected (reason : FailedEntry)       (* { status: 'rejected', reason } *)
  | InnerFulfilled (value : SuccessEntry).     (* { status: 'fulfilled', value } *)

(** ** The callback of [Object.values(usersToEmail).map] *)

Section callback.
Context `{JsRuntime}.

Definition padded_tickets (user : UserGroup) : list string :=
  (λ t, Js.padStart 4 "0" (Js.String_of_string (tickets t))) <$> ug_tickets user.

Definition nameToLowerCase (user : UserGroup) : string :=
  toUpperCase (Js.charAt0 (ug_name user)) +:+ Js.slice 1 (ug_name user).

Definition render_payload (user : UserGroup) (to : string) : EmailPayload :=
  {| mail_from := "JuegacnNosotros <noreply@juegacnnosotros.com>";
     mail_to := to;
     mail_subject := "Tu Compra ha sido Aprobada " +:+ nameToLowerCase user +:+ " ";
     mail_react :=
       {| props_name := Js.or_else (nameToLowerCase user) "Participante";
          props_tickets := Js.join ", " (padded_tickets user);
          ticketCount := length (padded_tickets user);
          cardId := ug_id_card user |} |}.

(** [user.email] when it is truthy. *)
Definition usable_email (user : UserGroup) : option string :=
  match ug_email user with
  | Some e => if Js.truthy e then Some e else None
  | None => None
  end.

Definition ticketIdsToUpdate (user : UserGroup) : list Z :=
  id_tickets <$> ug_tickets user.

Definition send_error_text (sendError : ErrorResponse) : string :=
  Js.or_else (message sendError) (JSON_stringify sendError).

Definition update_error_text (updateError : PostgrestError) : string :=
  "Email sent, but DB update failed: " +:+ pg_message updateError.

Definition email_callback (user : UserGroup) : Async Inner :=
  match usable_email user with
  | None =>
      Return (InnerRejected
        {| failed_id_user := ug_id_user user;
           error := "El usuario no tiene un email registrado." |})
  | Some to =>
      let! response := resend_emails_send (render_payload user to) in
      match response with
      | SendError sendError =>
          Throw {| failed_id_user := ug_id_user user;
                   error := send_error_text sendError |}
      | SendData sentEmail =>
          let! updateError := supabase_update_in (ticketIdsToUpdate user) in
          match updateError with
          | Some updateError =>
              Throw {| failed_id_user := ug_id_user user;
                       error := update_error_text updateError |}
          | None =>
              Return (InnerFulfilled
                {| success_id_user := ug_id_user user;
                   email_id := sent_id sentEmail |})
          end
      end
  end.

End callback.

(** ** The event loop

    The calls a run makes are recorded together with the position, in
    [emailPromises], of the promise that made them.  The collaborators'
    answers to the promise at a position are given by an [Env]. *)

Inductive Call :=
  | CallSend (payload : EmailPayload)
  | CallUpdate (ids : list Z).

Record Event := { ev_promise : nat; ev_call : Call }.

Record Env := {
  resend_answer : nat → EmailPayload → SendResponse;
  supabase_answer : nat → list Z → option PostgrestError;
}.

(** [update({ email_send: true }).in('id_tickets', ids)] on the column. *)
Definition mark_sent (ids : list Z) (db : gmap Z bool) : gmap Z bool :=
  foldr (λ i m, alter (λ _, true) i m) db ids.

(** A failed statement changes no row. *)
Definition apply_update (answer : option PostgrestError) (ids : list Z)
    (db : gmap Z bool) : gmap Z bool :=
  match answer with
  | None => mark_sent ids db
  | Some _ => db
  end.

Inductive PromiseSettledResult :=
  | Fulfilled (value : Inner)
  | Rejected (reason : FailedEntry).

Section loop.
Context (env : Env).

(** The call a suspended computation is waiting for. *)
Definition issued (i : nat) (t : Async Inner) : list Event :=
  match t with
  | AwaitSend payload _ => [ {| ev_promise := i; ev_call := CallSend payload |} ]
  | AwaitUpdate ids _ => [ {| ev_promise := i; ev_call := CallUpdate ids |} ]
  | _ => []
  end.

(** The answer arrives: the store applies a pending update, and the
    computation runs on to its next [await] or to its end. *)
Definition resume (i : nat) (t : Async Inner) (db : gmap Z bool)
  : Async Inner * gmap Z bool :=
  match t with
  | AwaitSend payload k => (k (resend_answer env i payload), db)
  | AwaitUpdate ids k =>
      let answer := supabase_answer env i ids in
      (k answer, apply_update answer ids db)
  | _ => (t, db)
  end.

Record Loop := {
  promises : list (Async Inner);
  db : gmap Z bool;
  log : list Event;
}.

(** One turn of the loop, for the promise at position [i]. *)
Definition step (s : Loop) (i : nat) : Loop :=
  match promises s !! i with
  | Some t =>
      let '(t', db') := resume i t (db s) in
      {| promises := <[i := t']> (promises s);
         db := db';
         log := log s ++ issued i t' |}
  | None => s
  end.

(** A promise followed until it settles. *)
Fixpoint finish (i : nat) (t : Async Inner) (db : gmap Z bool) (log : list Event)
  : PromiseSettledResult * gmap Z bool * list Event :=
  match t with
  | Return a => (Fulfilled a, db, log)
  | Throw reason => (Rejected reason, db, log)
  | AwaitSend payload k =>
      let t' := k (resend_answer env i payload) in
      finish i t' db (log ++ issued i t')
  | AwaitUpdate ids k =>
      let answer := supabase_answer env i ids in
      let t' := k answer in
      finish i t' (apply_update answer ids db) (log ++ issued i t')
  end.

Fixpoint drain (i : nat) (ts : list (Async Inner)) (db : gmap Z bool)
    (log : list Event) : list PromiseSettledResult * gmap Z bool * list Event :=
  match ts with
  | [] => ([], db, log)
  | t :: ts =>
      let '(r, db1, log1) := finish i t db log in
      let '(rs, db2, log2) := drain (S i) ts db1 log1 in
      (r :: rs, db2, log2)
  end.

(** [await Promise.allSettled(emailPromises)]: the answers come in the
    order [sched] names the promises; whatever is still waiting after that
    is followed to its end.  The result lists the promises in their own
    order. *)
Definition Promise_allSettled (sched : list nat) (s : Loop)
  : list PromiseSettledResult * gmap Z bool * list Event :=
  let s' := foldl step s sched in
  drain 0 (promises s') (db s') (log s').

End loop.

(** The body of [settledResults.forEach]. *)
Definition collect (results : Results) (result : PromiseSettledResult) : Results :=
  match result with
  | Fulfilled (InnerFulfilled value) =>
      {| success := success results ++ [value]; failed := failed results |}
  | Fulfilled (InnerRejected reason) =>
      {| success := success results; failed := failed results ++ [reason] |}
  | Rejected reason =>
      {| success := success results; failed := failed results ++ [reason] |}
  end.

(** ** The handler *)

Record Request := { authorization : option string }.

(** [{ data: ticketsData, error: fetchError }] *)
Record FetchResponse := {
  data : option (list TicketData);
  fetchError : option PostgrestError;
}.

Inductive Body :=
  | BodyMessage (msg : string)
  | BodyError (msg : string) (err : string)
  | BodyResults (msg : string) (results : Results).

Inductive Response :=
  | TextResponse (text : string) (status : Z)
  | JsonResponse (body : Body) (status : Z).

Record Outcome := {
  response : Response;
  final_db : gmap Z bool;
  calls : list Event;
}.

Section handler.
Context `{JsRuntime}.

(** [`Bearer ${process.env.CRON_SECRET}`] *)
Definition bearer (CRON_SECRET : option string) : string :=
  "Bearer " +:+ default "undefined" CRON_SECRET.

Definition authorized (CRON_SECRET : option string) (request : Request) : bool :=
  bool_decide (authorization request = Some (bearer CRON_SECRET)).

Definition emailPromises (ticketsData : list TicketData) : list (Async Inner) :=
  email_callback <$> JsObject.values (group_tickets ticketsData).

(** 'Proceso de envío de correos completado.', the accented letter being
    the code unit 237. *)
Definition msg_completed : string :=
  "Proceso de env" +:+ String "237"%char "o de correos completado.".

Definition msg_fetch_error : string :=
  "Error al obtener usuarios para enviar correos".

Definition msg_nothing_pending : string :=
  "No hay correos pendientes por enviar.".

(** Steps 3 to 6, once the fetched set is known to be non-empty. *)
Definition dispatch (env : Env) (sched : list nat)
    (ticketsData : list TicketData) (db0 : gmap Z bool) : Outcome :=
  let ps := emailPromises ticketsData in
  let started := {| promises := ps; db := db0; log := mjoin (imap issued ps) |} in
  let '(settledResults, db1, log1) := Promise_allSettled env sched started in
  let results := foldl collect {| success := []; failed := [] |} settledResults in
  {| response :=
       JsonResponse (BodyResults msg_completed results) 200;
     final_db := db1;
     calls := log1 |}.

Definition POST (CRON_SECRET : option string) (request : Request)
    (fetched : FetchResponse) (env : Env) (sched : list nat)
    (db0 : gmap Z bool) : Outcome :=
  if negb (authorized CRON_SECRET request) then
    {| response := TextResponse "Unauthorized" 401; final_db := db0; calls := [] |}
  else
    match fetchError fetched with
    | Some e =>
        {| response :=
             JsonResponse
               (BodyError msg_fetch_error (pg_message e)) 500;
           final_db := db0; calls := [] |}
    | None =>
        match data fetched with
        | None | Some [] =>
            {| response :=
                 JsonResponse (BodyMessage msg_nothing_pending) 200;
               final_db := db0; calls := [] |}
        | Some ticketsData => dispatch env sched ticketsData db0
        end
    end.


End handler.

(** ** A runtime for names and errors written in ASCII *)

Module Ascii_runtime.

Definition upper_char (c : ascii) : ascii :=
  let n := nat_of_ascii c in
  if ((97 <=? n) && (n <=? 122))%nat then ascii_of_nat (n - 32) else c.

Fixpoint upper (s : string) : string :=
  match s with
  | EmptyString => EmptyString
  | String c r => String (upper_char c) (upper r)
  end.

Definition quote : string := String "034"%char EmptyString.
Definition backslash : string := String "092"%char EmptyString.

Definition hex_digit (n : nat) : ascii :=
  if (n <? 10)%nat then ascii_of_nat (48 + n) else ascii_of_nat (87 + n).

(** One code unit inside a JSON string literal. *)
Definition escape_char (c : ascii) : string :=
  let n := nat_of_ascii c in
  if (n =? 34)%nat then backslash +:+ quote
  else if (n =? 92)%nat then backslash +:+ backslash
  else if (n =? 8)%nat then backslash +:+ "b"
  else if (n =? 12)%nat then backslash +:+ "f"
  else if (n =? 10)%nat then backslash +:+ "n"
  else if (n =? 13)%nat then backslash +:+ "r"
  else if (n =? 9)%nat then backslash +:+ "t"
  else if (n <? 32)%nat then
    backslash +:+ "u00" +:+
      String (hex_digit (n / 16)) (String (hex_digit (n mod 16)) EmptyString)
  else String c EmptyString.

Fixpoint escape (s : string) : string :=
  match s with
  | EmptyString => EmptyString
  | String c r => escape_char c +:+ escape r
  end.

Definition quoted (s : string) : string := quote +:+ escape s +:+ quote.

(** [JSON.stringify] of an object with the two string properties
    [message] and [name]. *)
Definition stringify (e : ErrorResponse) : string :=
  "{" +:+ quoted "message" +:+ ":" +:+ quoted (message e) +:+ ","
      +:+ quoted "name" +:+ ":" +:+ quoted (error_name e) +:+ "}".

Definition runtime : JsRuntime :=
  {| toUpperCase := upper; JSON_stringify := stringify |}.

End Ascii_runtime.

(** ** Sample data

    The example of the specification (tickets 7 and 42 of a user with an
    address, ticket 3 of a user without one), with a third user and a
    ticket whose payment has no user beside them. *)

Module Sample.

Definition u1 : UserData :=
  {| id_user := 1; name := "ana"; email := Some "ana@example.org";
     id_card := "V-1" |}.

Definition u2 : UserData :=
  {| id_user := 2; name := "luis"; email := None; id_card := "V-2" |}.

Definition u3 : UserData :=
  {| id_user := 3; name := ""; email := Some "eva@example.org";
     id_card := "V-3" |}.

Definition ticket (i : Z) (code : string) (u : Embedded UserData) : TicketData :=
  {| id_tickets := i; tickets := code; email_send := false;
     pay_data := EmbOne {| id_pay := 100 + i; validated := true; user_data := u |} |}.

Definition t7 := ticket 11 "7" (EmbArray [u1]).
Definition t42 := ticket 12 "42" (EmbOne u1).
Definition t3 := ticket 13 "3" (EmbArray [u2]).
Definition orphan := ticket 14 "9" EmbNull.
Definition t8 := ticket 15 "12345" (EmbArray [u3]).

Definition spec_example : list TicketData := [t7; t42; t3].

Definition ticketsData : list TicketData := [t7; t3; t42; orphan; t8].

(** The three groups of [ticketsData], in the order of [Object.values]. *)
Definition g1 : UserGroup :=
  {| ug_id_user := 1; ug_name := "ana"; ug_email := Some "ana@example.org";
     ug_id_card := "V-1"; ug_tickets := [t7; t42] |}.

Definition g2 : UserGroup :=
  {| ug_id_user := 2; ug_name := "luis"; ug_email := None;
     ug_id_card := "V-2"; ug_tickets := [t3] |}.

Definition g3 : UserGroup :=
  {| ug_id_user := 3; ug_name := ""; ug_email := Some "eva@example.org";
     ug_id_card := "V-3"; ug_tickets := [t8] |}.

Definition db0 : gmap Z bool :=
  <[11 := false]> (<[12 := false]> (<[13 := false]>
    (<[14 := false]> (<[15 := false]> ∅)))).

(** Every send is accepted, every update goes through. *)
Definition all_good : Env :=
  {| resend_answer := λ _ _, SendData {| sent_id := "re_1" |};
     supabase_answer := λ _ _, None |}.

(** The provider refuses the message of the promise at position [i]. *)
Definition send_refused (i : nat) (sendError : ErrorResponse) : Env :=
  {| resend_answer := λ j _,
       if decide (j = i) then SendError sendError
       else SendData {| sent_id := "re_1" |};
     supabase_answer := λ _ _, None |}.

(** The store fails the update of the promise at position [i]. *)
Definition update_refused (i : nat) : Env :=
  {| resend_answer := λ _ _, SendData {| sent_id := "re_1" |};
     supabase_answer := λ j _,
       if decide (j = i) then Some {| pg_message := "timeout" |} else None |}.

Definition quota : ErrorResponse :=
  {| message := "Daily quota exceeded"; error_name := "daily_quota_exceeded" |}.

(** An error object whose message is the empty string. *)
Definition silent : ErrorResponse :=
  {| message := EmptyString; error_name := "application_error" |}.

Definition request : Request := {| authorization := Some "Bearer s3cret" |}.

Definition fetch (l : list TicketData) : FetchResponse :=
  {| data := Some l; fetchError := None |}.

Definition fetched : FetchResponse := fetch ticketsData.

Definition failed_fetch : FetchResponse :=
  {| data := None; fetchError := Some {| pg_message := "connection refused" |} |}.

Definition run_on (l : list TicketData) (env : Env) (sched : list nat) : Outcome :=
  @POST Ascii_runtime.runtime (Some "s3cret") request (fetch l) env sched db0.

Definition run (env : Env) (sched : list nat) : Outcome :=
  run_on ticketsData env sched.

End Sample.

(** ** Vocabulary of the statements *)

(** The identifier of the user a ticket resolves to. *)
Definition user_id_of (t : TicketData) : option Z := id_user <$> resolve_user t.

(** The fetched tickets that resolve to the user [uid], in fetch order. *)
Definition tickets_of (uid : Z) (l : list TicketData) : list TicketData :=
  filter (λ t, user_id_of t = Some uid) l.

(** The group [g] carries the columns of the user row [user]. *)
Definition group_from (user : UserData) (g : UserGroup) : Prop :=
  ug_id_user g = id_user user ∧ ug_name g = name user ∧
  ug_email g = email user ∧ ug_id_card g = id_card user.

(** What the loop has built once it has gone through [l]. *)
Definition grouped (l : list TicketData) (o : JsObject.t UserGroup) : Prop :=
  NoDup o.*1 ∧
  (∀ k g, JsObject.get k o = Some g →
     k = Js.String_of_number (ug_id_user g) ∧
     ug_tickets g = tickets_of (ug_id_user g) l ∧
     ∃ t user, head (ug_tickets g) = Some t ∧ resolve_user t = Some user ∧
               group_from user g) ∧
  (∀ t uid, t ∈ l → user_id_of t = Some uid →
     is_Some (JsObject.get (Js.String_of_number uid) o)).

(** The groups, in the order [Object.values] lists them. *)
Definition groups_of (ticketsData : list TicketData) : list UserGroup :=
  JsObject.values (group_tickets ticketsData).

(** Where a promise ends up, the rows its updates mark, and the calls it
    still has to make, when the collaborators answer as [env] says. *)
Fixpoint settle (env : Env) (i : nat) (t : Async Inner) : PromiseSettledResult :=
  match t with
  | Return a => Fulfilled a
  | Throw reason => Rejected reason
  | AwaitSend payload k => settle env i (k (resend_answer env i payload))
  | AwaitUpdate ids k => settle env i (k (supabase_answer env i ids))
  end.

Fixpoint writes (env : Env) (i : nat) (t : Async Inner) : list Z :=
  match t with
  | Return _ | Throw _ => []
  | AwaitSend payload k => writes env i (k (resend_answer env i payload))
  | AwaitUpdate ids k =>
      let answer := supabase_answer env i ids in
      (if answer is None then ids else []) ++ writes env i (k answer)
  end.

Fixpoint future (env : Env) (i : nat) (t : Async Inner) : list Event :=
  match t with
  | Return _ | Throw _ => []
  | AwaitSend payload k =>
      let t' := k (resend_answer env i payload) in
      issued i t' ++ future env i t'
  | AwaitUpdate ids k =>
      let t' := k (supabase_answer env i ids) in
      issued i t' ++ future env i t'
  end.

(** All the calls of the promise at position [i]. *)
Definition trace (env : Env) (i : nat) (t : Async Inner) : list Event :=
  issued i t ++ future env i t.

(** The rows still to be marked and the calls still to be made by the
    promises of a loop. *)
Definition pending_writes (env : Env) (s : Loop) : list Z :=
  mjoin (imap (writes env) (promises s)).

Definition pending_calls (env : Env) (s : Loop) : list Event :=
  mjoin (imap (future env) (promises s)).

(** The entry a settled result adds to each list of the report. *)
Definition success_of (r : PromiseSettledResult) : option SuccessEntry :=
  match r with
  | Fulfilled (InnerFulfilled value) => Some value
  | _ => None
  end.

Definition failed_of (r : PromiseSettledResult) : option FailedEntry :=
  match r with
  | Fulfilled (InnerRejected reason) => Some reason
  | Rejected reason => Some reason
  | Fulfilled (InnerFulfilled _) => None
  end.

(** The report a response carries. *)
Definition report_of (r : Response) : option Results :=
  match r with
  | JsonResponse (BodyResults _ results) _ => Some results
  | _ => None
  end.

(** The entries of a report for the user [uid]. *)
Definition success_for (uid : Z) (r : Results) : list SuccessEntry :=
  filter (λ e, success_id_user e = uid) (success r).

Definition failed_for (uid : Z) (r : Results) : list FailedEntry :=
  filter (λ e, failed_id_user e = uid) (failed r).

Section vocabulary.
Context `{JsRuntime}.

(** How the promise of the group [g], at position [i], settles. *)
Definition fate (env : Env) (i : nat) (g : UserGroup) : PromiseSettledResult :=
  settle env i (email_callback g).

(** The group at position [i] is sent to, and its rows are marked. *)
Definition succeeded (env : Env) (i : nat) (g : UserGroup) : Prop :=
  ∃ to sentEmail,
    usable_email g = Some to ∧
    resend_answer env i (render_payload g to) = SendData sentEmail ∧
    supabase_answer env i (ticketIdsToUpdate g) = None.

(** The request passes the bearer check and the fetch returns the
    non-empty list [ticketsData] without an error. *)
Definition reaches_dispatch (CRON_SECRET : option string) (request : Request)
    (fetched : FetchResponse) (ticketsData : list TicketData) : Prop :=
  authorized CRON_SECRET request = true ∧
  fetchError fetched = None ∧
  data fetched = Some ticketsData ∧
  ticketsData ≠ [].

End vocabulary.

(** The list [l] is what the query returns from the table [db]: rows of
    the table, each once ([id_tickets] is the key of the table), all with
    the flag [email_send] false, which is the filter of the query. *)
Definition fetched_from (db : gmap Z bool) (l : list TicketData) : Prop :=
  NoDup (id_tickets <$> l) ∧
  Forall (λ t, email_send t = false ∧ db !! id_tickets t = Some false) l.

(** ** Vocabulary of the further properties *)

Definition is_send_call (e : Event) : Prop := ∃ payload, ev_call e = CallSend payload.

Definition is_update_call (e : Event) : Prop := ∃ ids, ev_call e = CallUpdate ids.

(** A computation that will make no send call, whatever it is answered. *)
Fixpoint quiet (t : Async Inner) : Prop :=
  match t with
  | Return _ | Throw _ => True
  | AwaitSend _ _ => False
  | AwaitUpdate _ k => ∀ answer, quiet (k answer)
  end.

(** A computation whose only send call, if it makes one, is its first
    call. *)
Definition sends_first (t : Async Inner) : Prop :=
  match t with
  | AwaitSend _ k => ∀ answer, quiet (k answer)
  | _ => quiet t
  end.

(** The fetched tickets that resolve to a user. *)
Definition resolved (l : list TicketData) : list TicketData :=
  filter (λ t, is_Some (resolve_user t)) l.

(** The calls made while [Object.values(usersToEmail).map] runs, before any
    answer has come. *)
Definition first_calls `{JsRuntime} (l : list TicketData) : list Event :=
  mjoin (imap issued (emailPromises l)).

(** The identifiers of a list without repetition, each at the place
    where it is met first. *)
Definition first_seen (ids : list Z) : list Z :=
  foldl (λ seen uid, if decide (uid ∈ seen) then seen else seen ++ [uid]) [] ids.

(** The identifiers whose numeral is an array index. *)
Definition index_id (uid : Z) : Prop := 0 ≤ uid < 2 ^ 32 - 1.

Global Instance index_id_dec uid : Decision (index_id uid).
Proof. unfold index_id. apply _. Defined.

(** Closed goals about the sample data are settled by evaluation. *)
Ltac by_computation :=
  first [ reflexivity
        | vm_compute; first [ reflexivity | discriminate | done ] ].

Ltac sample_reaches :=
  unfold reaches_dispatch; split_and!; by_computation.

Ltac sample_fetched :=
  unfold fetched_from; split; apply (bool_decide_unpack _); by vm_compute.

(** * Properties *)

(** ** Strings *)

Lemma repeat_zero_S n :
  Js.repeat (S n) "0" = String "0"%char (Js.repeat n "0").
Proof. reflexivity. Qed.

Lemma take_repeat_zero n : Js.take n (Js.repeat n "0") = Js.repeat n "0".
Proof.
  induction n as [|n IH]; [done|].
  rewrite repeat_zero_S. cbn [Js.take]. by rewrite IH.
Qed.

Lemma length_repeat_zero n : String.length (Js.repeat n "0") = n.
Proof.
  induction n as [|n IH]; [done|].
  rewrite repeat_zero_S. cbn [String.length]. by rewrite IH.
Qed.

Lemma string_length_app (a b : string) :
  String.length (a +:+ b) = (String.length a + String.length b)%nat.
Proof.
  induction a as [|c a IH]; [done|].
  change (S (String.length (a +:+ b)) = S (String.length a + String.length b)).
  by rewrite IH.
Qed.

(** Padding with zeros to four characters puts the missing zeros in
    front and leaves a longer code as it is. *)
Lemma padStart_zero (s : string) :
  Js.padStart 4 "0" s = Js.repeat (4 - String.length s) "0" +:+ s.
Proof.
  unfold Js.padStart. simpl Js.truthy. simpl negb. rewrite orb_false_r.
  destruct (4 <=? String.length s)%nat eqn:Hle.
  - apply Nat.leb_le in Hle.
    by replace (4 - String.length s)%nat with 0%nat by lia.
  - by rewrite take_repeat_zero.
Qed.

Lemma length_padStart_zero (s : string) :
  String.length (Js.padStart 4 "0" s) = (4 `max` String.length s)%nat.
Proof.
  rewrite padStart_zero, string_length_app, length_repeat_zero. lia.
Qed.

(** A string is its first character followed by the rest. *)
Lemma charAt0_slice (s : string) : Js.charAt0 s +:+ Js.slice 1 s = s.
Proof. by destruct s. Qed.

(** ** Objects *)

Section object_facts.
Context {V : Type}.
Implicit Types (o : JsObject.t V) (k : string) (v : V).

Lemma get_nil k : JsObject.get k ([] : JsObject.t V) = None.
Proof. reflexivity. Qed.

Lemma get_cons k k' v o :
  JsObject.get k ((k', v) :: o)
  = if bool_decide (k' = k) then Some v else JsObject.get k o.
Proof. unfold JsObject.get. simpl. by case_bool_decide. Qed.

Lemma get_set k k' v o :
  JsObject.get k' (JsObject.set k v o)
  = if bool_decide (k = k') then Some v else JsObject.get k' o.
Proof.
  induction o as [|[k0 v0] o IH]; simpl.
  - rewrite get_cons. by case_bool_decide.
  - destruct (bool_decide_reflect (k0 = k)) as [->|Hne].
    + rewrite !get_cons. by case_bool_decide.
    + rewrite !get_cons, IH.
      repeat case_bool_decide; congruence.
Qed.

Lemma get_None k o : JsObject.get k o = None ↔ k ∉ o.*1.
Proof.
  induction o as [|[k0 v0] o IH]; simpl.
  - split; [intros _; apply not_elem_of_nil | done].
  - rewrite get_cons, not_elem_of_cons. case_bool_decide; subst.
    + split; [done | intros [? _]; done].
    + rewrite IH. split; [done | by intros [_ ?]].
Qed.

Lemma get_Some_elem_of k v o : JsObject.get k o = Some v → (k, v) ∈ o.
Proof.
  induction o as [|[k0 v0] o IH]; [done|].
  rewrite get_cons. case_bool_decide; subst.
  - intros [= ->]. left.
  - intros. right. auto.
Qed.

Lemma elem_of_get k v o : NoDup o.*1 → (k, v) ∈ o → JsObject.get k o = Some v.
Proof.
  induction o as [|[k0 v0] o IH]; simpl.
  - intros _ Hin. by apply elem_of_nil in Hin.
  - rewrite NoDup_cons, elem_of_cons, get_cons. intros [Hk0 Hnd] [[= -> ->]|Hin].
    + by rewrite bool_decide_eq_true_2.
    + case_bool_decide; subst; [|by auto].
      destruct Hk0. apply (list_elem_of_fmap_2 fst) in Hin. done.
Qed.

Lemma keys_set k v o :
  (JsObject.set k v o).*1
  = match JsObject.get k o with Some _ => o.*1 | None => o.*1 ++ [k] end.
Proof.
  induction o as [|[k0 v0] o IH]; [done|].
  cbn [JsObject.set]. rewrite get_cons.
  case_bool_decide; subst; [done|].
  rewrite !fmap_cons, IH. by destruct (JsObject.get k o).
Qed.

Lemma NoDup_keys_set k v o : NoDup o.*1 → NoDup (JsObject.set k v o).*1.
Proof.
  intros Hnd. rewrite keys_set.
  destruct (JsObject.get k o) eqn:Hget; [done|].
  apply NoDup_app. split_and!; [done| |apply NoDup_singleton].
  intros x Hx ->%list_elem_of_singleton. by apply get_None in Hget.
Qed.

Lemma indexed_named_Permutation o :
  (snd <$> JsObject.indexed o) ++ JsObject.named o ≡ₚ o.*2.
Proof.
  induction o as [|[k0 v0] o IH]; simpl; [done|].
  destruct (JsObject.array_index k0); simpl.
  - by rewrite IH.
  - by rewrite <- Permutation_middle, IH.
Qed.

(** [Object.values] lists every own property once. *)
Lemma values_Permutation o : JsObject.values o ≡ₚ o.*2.
Proof.
  unfold JsObject.values.
  rewrite (merge_sort_Permutation JsObject.index_le).
  apply indexed_named_Permutation.
Qed.

Lemma elem_of_values v o : v ∈ JsObject.values o ↔ ∃ k, (k, v) ∈ o.
Proof.
  rewrite values_Permutation, list_elem_of_fmap. split.
  - intros [[k v'] [-> Hin]]. by exists k.
  - intros [k Hin]. by exists (k, v).
Qed.

End object_facts.

(** ** Grouping *)

Global Instance String_of_number_inj : Inj (=) (=) Js.String_of_number.
Proof. unfold Js.String_of_number. apply _. Qed.

Lemma tickets_of_snoc uid l t :
  tickets_of uid (l ++ [t])
  = tickets_of uid l ++ (if decide (user_id_of t = Some uid) then [t] else []).
Proof.
  unfold tickets_of. rewrite filter_app. f_equal.
Qed.

Lemma tickets_of_none uid l :
  (∀ t, t ∈ l → user_id_of t ≠ Some uid) → tickets_of uid l = [].
Proof.
  intros Hnone. unfold tickets_of.
  induction l as [|t l IH]; [done|].
  rewrite filter_cons. case_decide as Ht.
  - destruct (Hnone t); [left | done].
  - apply IH. intros t' Hin. apply Hnone. by right.
Qed.

Lemma elem_of_tickets_of uid l t :
  t ∈ tickets_of uid l ↔ t ∈ l ∧ user_id_of t = Some uid.
Proof. unfold tickets_of. rewrite list_elem_of_filter. tauto. Qed.

Lemma grouped_nil : grouped [] [].
Proof.
  unfold grouped. split; [constructor | split].
  - intros k g Hget. by rewrite get_nil in Hget.
  - intros t uid Hin. by apply elem_of_nil in Hin.
Qed.

Lemma grouped_skip l o t :
  resolve_user t = None → grouped l o → grouped (l ++ [t]) o.
Proof.
  intros Hres (Hnd & Hget & Hall).
  assert (Hid : user_id_of t = None) by (unfold user_id_of; by rewrite Hres).
  split_and!; [done | |].
  - intros k g Hk. destruct (Hget k g Hk) as (-> & Htk & Hfrom).
    split_and!; [done | | done].
    rewrite tickets_of_snoc, Htk. case_decide; [congruence|].
    by rewrite app_nil_r.
  - intros t' uid [Hin | ->%list_elem_of_singleton]%elem_of_app Huid.
    + eauto.
    + congruence.
Qed.

Lemma head_snoc {A} (l : list A) x : head (l ++ [x]) = Some (default x (head l)).
Proof. by destruct l. Qed.

Lemma grouped_push l o t user :
  resolve_user t = Some user → grouped l o →
  grouped (l ++ [t]) (group_step o t).
Proof.
  intros Hres (Hnd & Hget & Hall).
  assert (Hid : user_id_of t = Some (id_user user))
    by (unfold user_id_of; by rewrite Hres).
  unfold group_step. rewrite Hres. cbv zeta.
  set (k0 := Js.String_of_number (id_user user)).
  set (fresh := {| ug_id_user := id_user user; ug_name := name user;
                   ug_email := email user; ug_id_card := id_card user;
                   ug_tickets := [] |}).
  set (o1 := match JsObject.get k0 o with
             | None => JsObject.set k0 fresh o
             | Some _ => o
             end).
  assert (Hnd1 : NoDup o1.*1).
  { subst o1. destruct (JsObject.get k0 o); [done|]. by apply NoDup_keys_set. }
  assert (Hother : ∀ k, k ≠ k0 → JsObject.get k o1 = JsObject.get k o).
  { intros k Hk. subst o1. destruct (JsObject.get k0 o); [done|].
    rewrite get_set. by rewrite bool_decide_eq_false_2. }
  assert (∃ g, JsObject.get k0 o1 = Some g ∧
               ug_tickets g = tickets_of (id_user user) l ∧
               ug_id_user g = id_user user ∧
               (ug_tickets g = [] → g = fresh) ∧
               (ug_tickets g ≠ [] →
                ∃ t' user', head (ug_tickets g) = Some t' ∧
                  resolve_user t' = Some user' ∧ group_from user' g))
    as (g & Hg & Htk & Hgid & Hnew & Hold).
  { subst o1. destruct (JsObject.get k0 o) as [g|] eqn:Hk0.
    - destruct (Hget _ _ Hk0) as (Hkey & Htk & Hfrom).
      apply (inj Js.String_of_number) in Hkey.
      exists g. split_and!; [done | by rewrite Htk, Hkey | done | |done].
      intros Hnil. destruct Hfrom as (? & ? & Hhd & _). by rewrite Hnil in Hhd.
    - exists fresh. rewrite get_set, bool_decide_eq_true_2 by done.
      split_and!; [done | | done | done | done].
      symmetry. apply tickets_of_none. intros t' Hin Ht'.
      destruct (Hall t' _ Hin Ht') as [? Hsome]. fold k0 in Hsome. congruence. }
  rewrite Hg. split_and!.
  - by apply NoDup_keys_set.
  - intros k g'. rewrite get_set. case_bool_decide as Hk.
    + subst k. intros [= <-]. simpl. rewrite Hgid. split_and!; [done | |].
      * rewrite tickets_of_snoc, Htk. by rewrite decide_True.
      * rewrite head_snoc. destruct (ug_tickets g) as [|t0 tl] eqn:Hts.
        -- exists t, user. rewrite (Hnew eq_refl). by simpl.
        -- destruct Hold as (t' & user' & Hhd & Hres' & Hfrom); [done|].
           exists t', user'. simpl in *. by split_and!.
    + rewrite Hother by done. intros Hk'.
      destruct (Hget _ _ Hk') as (-> & Htk' & Hfrom). split_and!; [done | | done].
      rewrite tickets_of_snoc, Htk'. case_decide as Heq; [|by rewrite app_nil_r].
      rewrite Hid in Heq. injection Heq as Heq. destruct Hk. subst k0. by rewrite Heq.
  - intros t' uid [Hin | ->%list_elem_of_singleton]%elem_of_app Huid.
    + rewrite get_set. case_bool_decide; [eauto|].
      destruct (decide (Js.String_of_number uid = k0)) as [Hk|Hk].
      * rewrite Hk, Hg. eauto.
      * rewrite Hother by done. eauto.
    + rewrite Hid in Huid. injection Huid as <-. fold k0.
      rewrite get_set, bool_decide_eq_true_2 by done. eauto.
Qed.

Lemma grouped_step l o t : grouped l o → grouped (l ++ [t]) (group_step o t).
Proof.
  intros Hg. destruct (resolve_user t) as [user|] eqn:Hres.
  - by eapply grouped_push.
  - unfold group_step. rewrite Hres. by apply grouped_skip.
Qed.

Lemma group_tickets_grouped l : grouped l (group_tickets l).
Proof.
  unfold group_tickets. induction l as [|t l IH] using rev_ind.
  - apply grouped_nil.
  - rewrite foldl_app. simpl. by apply grouped_step.
Qed.

Lemma keys_of_grouped l o :
  grouped l o → o.*1 = (Js.String_of_number ∘ ug_id_user) <$> o.*2.
Proof.
  intros (Hnd & Hget & _). rewrite <- list_fmap_compose.
  apply list_fmap_ext. intros i [k g] Hin%list_elem_of_lookup_2.
  apply (elem_of_get _ _ _ Hnd) in Hin.
  by destruct (Hget _ _ Hin) as (-> & _).
Qed.

Lemma groups_of_NoDup l : NoDup (ug_id_user <$> groups_of l).
Proof.
  pose proof (group_tickets_grouped l) as Hg.
  unfold groups_of. rewrite values_Permutation.
  apply (NoDup_fmap_1 Js.String_of_number).
  rewrite <- list_fmap_compose, <- (keys_of_grouped _ _ Hg). apply Hg.
Qed.

Lemma groups_of_spec l g :
  g ∈ groups_of l →
  ug_tickets g = tickets_of (ug_id_user g) l ∧
  ∃ t user, head (ug_tickets g) = Some t ∧ resolve_user t = Some user ∧
            group_from user g.
Proof.
  destruct (group_tickets_grouped l) as (Hnd & Hget & _).
  intros [k Hin%(elem_of_get _ _ _ Hnd)]%elem_of_values.
  by destruct (Hget _ _ Hin) as (_ & ? & ?).
Qed.

Lemma groups_of_complete l t uid :
  t ∈ l → user_id_of t = Some uid →
  ∃ g, g ∈ groups_of l ∧ ug_id_user g = uid.
Proof.
  destruct (group_tickets_grouped l) as (Hnd & Hget & Hall).
  intros Hin Huid. destruct (Hall _ _ Hin Huid) as [g Hg].
  exists g. split.
  - apply elem_of_values. eexists. by apply get_Some_elem_of.
  - destruct (Hget _ _ Hg) as (Hk & _). by apply (inj Js.String_of_number) in Hk.
Qed.

(** Two positions of [groups_of] hold different users. *)
Lemma groups_of_lookup_inj l i j g g' :
  groups_of l !! i = Some g → groups_of l !! j = Some g' →
  ug_id_user g = ug_id_user g' → i = j.
Proof.
  intros Hi Hj Heq.
  eapply (NoDup_lookup _ _ _ _ (groups_of_NoDup l)); rewrite list_lookup_fmap.
  - by rewrite Hi.
  - rewrite Hj. simpl. by rewrite Heq.
Qed.

Lemma group_tickets_resolved l g t :
  g ∈ groups_of l → t ∈ ug_tickets g → t ∈ l ∧ user_id_of t = Some (ug_id_user g).
Proof.
  intros [Htk _]%groups_of_spec. rewrite Htk. apply elem_of_tickets_of.
Qed.

(** ** The event loop *)

Lemma lookup_mark_sent ids (m : gmap Z bool) k :
  mark_sent ids m !! k
  = if bool_decide (k ∈ ids) then (λ _, true) <$> m !! k else m !! k.
Proof.
  unfold mark_sent. induction ids as [|i ids IH]; cbn [foldr].
  - by rewrite bool_decide_eq_false_2 by apply not_elem_of_nil.
  - rewrite lookup_alter. destruct (decide (i = k)) as [->|Hik].
    + rewrite bool_decide_eq_true_2 by left. rewrite IH.
      case_bool_decide; [|done]. by destruct (m !! k).
    + rewrite IH. rewrite (bool_decide_ext (k ∈ i :: ids) (k ∈ ids)); [done|].
      rewrite elem_of_cons. split; [intros [->|?]; [by destruct Hik | done] | by right].
Qed.

Global Instance mark_sent_Permutation :
  Proper ((≡ₚ) ==> (=) ==> (=)) mark_sent.
Proof.
  intros ids1 ids2 Hp m ? <-. apply map_eq. intros k.
  rewrite !lookup_mark_sent. by rewrite (bool_decide_ext _ (k ∈ ids2)) by by rewrite Hp.
Qed.

Lemma mark_sent_app ids1 ids2 (m : gmap Z bool) :
  mark_sent (ids1 ++ ids2) m = mark_sent ids1 (mark_sent ids2 m).
Proof. unfold mark_sent. by rewrite foldr_app. Qed.

Lemma apply_update_mark_sent answer ids (m : gmap Z bool) :
  apply_update answer ids m = mark_sent (if answer is None then ids else []) m.
Proof. by destruct answer. Qed.

Lemma imap_insert_same {A B} (f : nat → A → B) (l : list A) i t t' :
  l !! i = Some t → f i t' = f i t → imap f (<[i:=t']> l) = imap f l.
Proof.
  revert f i. induction l as [|x l IH]; intros f i Hi Hf; [done|].
  destruct i as [|i]; simpl in *.
  - injection Hi as ->. by rewrite Hf.
  - f_equal. by apply (IH (f ∘ S)).
Qed.

Lemma mjoin_imap_insert {A B} (f : nat → A → list B) (l : list A) i t t' e :
  l !! i = Some t → f i t ≡ₚ e ++ f i t' →
  mjoin (imap f l) ≡ₚ e ++ mjoin (imap f (<[i:=t']> l)).
Proof.
  revert f i. induction l as [|x l IH]; intros f i Hi Hf; [done|].
  destruct i as [|i]; simpl in *.
  - injection Hi as ->. by rewrite Hf, (assoc (++)).
  - rewrite (IH (f ∘ S) i Hi Hf).
    rewrite !(assoc (++)). f_equiv. apply Permutation_app_comm.
Qed.

Lemma mjoin_imap_app {A B} (f g : nat → A → list B) (l : list A) :
  mjoin (imap f l) ++ mjoin (imap g l) ≡ₚ mjoin (imap (λ i x, f i x ++ g i x) l).
Proof.
  revert f g. induction l as [|x l IH]; intros f g; simpl; [done|].
  rewrite <- (IH (f ∘ S) (g ∘ S)).
  rewrite <- !(assoc (++)). f_equiv.
  rewrite !(assoc (++)). f_equiv. apply Permutation_app_comm.
Qed.

Lemma elem_of_mjoin_imap {A B} (f : nat → A → list B) (l : list A) y :
  y ∈ mjoin (imap f l) ↔ ∃ i x, l !! i = Some x ∧ y ∈ f i x.
Proof.
  rewrite list_elem_of_join. split.
  - intros (ys & Hy & (i & x & -> & Hi)%elem_of_lookup_imap). eauto.
  - intros (i & x & Hi & Hy). exists (f i x). split; [done|].
    by apply elem_of_lookup_imap_2.
Qed.

Section loop_facts.
Context (env : Env).

Lemma resume_spec i t m :
  ∃ w, (resume env i t m).2 = mark_sent w m ∧
       writes env i t = w ++ writes env i (resume env i t m).1 ∧
       settle env i (resume env i t m).1 = settle env i t ∧
       future env i t
       = issued i (resume env i t m).1 ++ future env i (resume env i t m).1.
Proof.
  destruct t as [a|r|p k|ids k]; simpl.
  - by exists [].
  - by exists [].
  - by exists [].
  - exists (if supabase_answer env i ids is None then ids else []).
    by rewrite apply_update_mark_sent.
Qed.

Lemma finish_spec i t m evs :
  finish env i t m evs
  = (settle env i t, mark_sent (writes env i t) m, evs ++ future env i t).
Proof.
  revert m evs. induction t as [a|r|p k IH|ids k IH]; intros m evs; simpl.
  - by rewrite app_nil_r.
  - by rewrite app_nil_r.
  - by rewrite IH, (assoc (++)).
  - rewrite IH, apply_update_mark_sent, <- mark_sent_app, (assoc (++)).
    do 2 f_equal. apply mark_sent_Permutation; [|done]. apply Permutation_app_comm.
Qed.

Lemma drain_spec i ts m evs :
  drain env i ts m evs
  = (imap (λ j, settle env (i + j)) ts,
     mark_sent (mjoin (imap (λ j, writes env (i + j)) ts)) m,
     evs ++ mjoin (imap (λ j, future env (i + j)) ts)).
Proof.
  revert i m evs. induction ts as [|t ts IH]; intros i m evs; simpl.
  - by rewrite app_nil_r.
  - rewrite finish_spec, IH. rewrite Nat.add_0_r, <- mark_sent_app, <- (assoc (++)).
    f_equal; [f_equal|].
    + f_equal. apply imap_ext. intros j x _. simpl. by rewrite Nat.add_succ_r.
    + transitivity (mark_sent (writes env i t ++
                      mjoin (imap (λ j, writes env (S i + j)) ts)) m).
      * apply mark_sent_Permutation; [|done]. apply Permutation_app_comm.
      * do 3 f_equal. apply imap_ext. intros j x _. simpl. by rewrite Nat.add_succ_r.
    + do 3 f_equal. apply imap_ext. intros j x _. simpl. by rewrite Nat.add_succ_r.
Qed.

Lemma step_spec s i :
  imap (settle env) (promises (step env s i)) = imap (settle env) (promises s) ∧
  mark_sent (pending_writes env (step env s i)) (db (step env s i))
  = mark_sent (pending_writes env s) (db s) ∧
  log (step env s i) ++ pending_calls env (step env s i) ≡ₚ log s ++ pending_calls env s.
Proof.
  unfold step. destruct (promises s !! i) as [t|] eqn:Hi; [|done].
  destruct (resume_spec i t (db s)) as (w & Hdb & Hw & Hsettle & Hfut).
  destruct (resume env i t (db s)) as [t' m'] eqn:Hres. simpl in *.
  unfold pending_writes, pending_calls. simpl. split_and!.
  - by apply imap_insert_same with t.
  - rewrite Hdb, <- mark_sent_app. apply mark_sent_Permutation; [|done].
    rewrite (mjoin_imap_insert (writes env) _ i t t' w Hi) by by rewrite Hw.
    apply Permutation_app_comm.
  - rewrite (mjoin_imap_insert (future env) (promises s) i t t' (issued i t') Hi)
      by by rewrite Hfut.
    by rewrite (assoc (++)).
Qed.

Lemma steps_spec sched s :
  imap (settle env) (promises (foldl (step env) s sched))
  = imap (settle env) (promises s) ∧
  mark_sent (pending_writes env (foldl (step env) s sched))
    (db (foldl (step env) s sched))
  = mark_sent (pending_writes env s) (db s) ∧
  log (foldl (step env) s sched) ++ pending_calls env (foldl (step env) s sched)
  ≡ₚ log s ++ pending_calls env s.
Proof.
  revert s. induction sched as [|i sched IH]; intros s; simpl; [done|].
  destruct (IH (step env s i)) as (-> & -> & ->). apply step_spec.
Qed.

(** The settled results, the rows marked and the calls made do not depend
    on the order in which the answers come. *)
Lemma Promise_allSettled_spec sched s :
  ∃ evs,
    Promise_allSettled env sched s
    = (imap (settle env) (promises s),
       mark_sent (pending_writes env s) (db s), evs) ∧
    evs ≡ₚ log s ++ pending_calls env s.
Proof.
  unfold Promise_allSettled. rewrite drain_spec.
  destruct (steps_spec sched s) as (Hs & Hw & Hc).
  eexists. split; [|exact Hc].
  by rewrite <- Hs, <- Hw.
Qed.

End loop_facts.

(** ** The report *)

Lemma collect_spec r l :
  foldl collect r l
  = {| success := success r ++ omap success_of l;
       failed := failed r ++ omap failed_of l |}.
Proof.
  revert r. induction l as [|x l IH]; intros r; simpl.
  - rewrite !app_nil_r. by destruct r.
  - rewrite IH. destruct x as [[reason|value]|reason]; simpl;
      by rewrite <- ?(assoc (++)).
Qed.

(** Among entries that carry the identifier of their group, only the
    group's own entry passes the filter on its identifier. *)
Lemma filter_entries_of_group {E} (ident : E → Z)
    (F : nat → UserGroup → option E) (gs : list UserGroup) i g :
  (∀ j g' e, F j g' = Some e → ident e = ug_id_user g') →
  NoDup (ug_id_user <$> gs) → gs !! i = Some g →
  filter (λ e, ident e = ug_id_user g) (omap id (imap F gs))
  = option_list (F i g).
Proof.
  intros Hid. revert F Hid i.
  assert (Hrest : ∀ gs' F', (∀ j g' e, F' j g' = Some e → ident e = ug_id_user g') →
            ug_id_user g ∉ ug_id_user <$> gs' →
            filter (λ e, ident e = ug_id_user g) (omap id (imap F' gs')) = []).
  { induction gs' as [|x gs' IH]; intros F' HF' Hnot; [done|].
    rewrite fmap_cons, not_elem_of_cons in Hnot. destruct Hnot as [Hx Hnot].
    simpl. destruct (F' 0%nat x) as [e|] eqn:He; simpl.
    - rewrite filter_cons_False.
      + apply (IH (F' ∘ S)); [|done]. intros j g' e'. apply HF'.
      + rewrite (HF' _ _ _ He). congruence.
    - apply (IH (F' ∘ S)); [|done]. intros j g' e'. apply HF'. }
  induction gs as [|x gs IH]; intros F Hid i Hnd Hi; [done|].
  rewrite fmap_cons, NoDup_cons in Hnd. destruct Hnd as [Hx Hnd].
  destruct i as [|i]; simpl in Hi.
  - injection Hi as ->. simpl. destruct (F 0%nat g) as [e|] eqn:He; simpl.
    + rewrite filter_cons_True by by apply (Hid _ _ _ He).
      f_equal. apply (Hrest gs (F ∘ S)); [|done]. intros j g' e'. apply Hid.
    + apply (Hrest gs (F ∘ S)); [|done]. intros j g' e'. apply Hid.
  - assert (Hne : ug_id_user x ≠ ug_id_user g).
    { intros Heq. apply Hx. rewrite Heq.
      apply list_elem_of_fmap_2. by apply list_elem_of_lookup_2 in Hi. }
    simpl. destruct (F 0%nat x) as [e|] eqn:He; simpl.
    + rewrite filter_cons_False by (rewrite (Hid _ _ _ He); congruence).
      apply (IH (F ∘ S)); [|done..]. intros j g' e'. apply Hid.
    + apply (IH (F ∘ S)); [|done..]. intros j g' e'. apply Hid.
Qed.

Lemma omap_id_imap {A B C} (f : B → option C) (F : nat → A → B) (l : list A) :
  omap f (imap F l) = omap id (imap (λ i x, f (F i x)) l).
Proof.
  revert F. induction l as [|x l IH]; intros F; [done|].
  rewrite !imap_cons. cbn [omap list_omap]. rewrite (IH (F ∘ S)).
  by destruct (f (F 0%nat x)).
Qed.

Section dispatch_facts.
Context `{JsRuntime}.
Implicit Types (env : Env) (g : UserGroup) (l : list TicketData).

(** *** How each kind of group settles *)

Lemma fate_no_email env i g :
  usable_email g = None →
  fate env i g
  = Fulfilled (InnerRejected
      {| failed_id_user := ug_id_user g;
         error := "El usuario no tiene un email registrado." |}) ∧
  writes env i (email_callback g) = [] ∧
  trace env i (email_callback g) = [].
Proof. intros He. unfold fate, trace, email_callback. by rewrite He. Qed.

Lemma fate_send_error env i g to sendError :
  usable_email g = Some to →
  resend_answer env i (render_payload g to) = SendError sendError →
  fate env i g
  = Rejected {| failed_id_user := ug_id_user g;
                error := send_error_text sendError |} ∧
  writes env i (email_callback g) = [] ∧
  trace env i (email_callback g)
  = [ {| ev_promise := i; ev_call := CallSend (render_payload g to) |} ].
Proof.
  intros He Hs. unfold fate, trace, email_callback. rewrite He. simpl.
  by rewrite Hs.
Qed.

Lemma fate_update_error env i g to sentEmail updateError :
  usable_email g = Some to →
  resend_answer env i (render_payload g to) = SendData sentEmail →
  supabase_answer env i (ticketIdsToUpdate g) = Some updateError →
  fate env i g
  = Rejected {| failed_id_user := ug_id_user g;
                error := update_error_text updateError |} ∧
  writes env i (email_callback g) = [] ∧
  trace env i (email_callback g)
  = [ {| ev_promise := i; ev_call := CallSend (render_payload g to) |};
      {| ev_promise := i; ev_call := CallUpdate (ticketIdsToUpdate g) |} ].
Proof.
  intros He Hs Hu. unfold fate, trace, email_callback. rewrite He. simpl.
  rewrite Hs. simpl. by rewrite Hu.
Qed.

Lemma fate_succeeded env i g to sentEmail :
  usable_email g = Some to →
  resend_answer env i (render_payload g to) = SendData sentEmail →
  supabase_answer env i (ticketIdsToUpdate g) = None →
  fate env i g
  = Fulfilled (InnerFulfilled
      {| success_id_user := ug_id_user g; email_id := sent_id sentEmail |}) ∧
  writes env i (email_callback g) = ticketIdsToUpdate g ∧
  trace env i (email_callback g)
  = [ {| ev_promise := i; ev_call := CallSend (render_payload g to) |};
      {| ev_promise := i; ev_call := CallUpdate (ticketIdsToUpdate g) |} ].
Proof.
  intros He Hs Hu. unfold fate, trace, email_callback. rewrite He. simpl.
  rewrite Hs. simpl. rewrite Hu. by rewrite app_nil_r.
Qed.

(** The four ways a group can go. *)
Lemma fate_cases env i g :
  usable_email g = None ∨
  (∃ to sendError, usable_email g = Some to ∧
     resend_answer env i (render_payload g to) = SendError sendError) ∨
  (∃ to sentEmail updateError, usable_email g = Some to ∧
     resend_answer env i (render_payload g to) = SendData sentEmail ∧
     supabase_answer env i (ticketIdsToUpdate g) = Some updateError) ∨
  succeeded env i g.
Proof.
  destruct (usable_email g) as [to|] eqn:He; [|by left]. right.
  destruct (resend_answer env i (render_payload g to)) as [sentEmail|sendError] eqn:Hs;
    [|left; eauto].
  right.
  destruct (supabase_answer env i (ticketIdsToUpdate g)) as [updateError|] eqn:Hu.
  - left. eauto 10.
  - right. unfold succeeded. eauto 10.
Qed.

Lemma success_of_fate_id env i g e :
  success_of (fate env i g) = Some e → success_id_user e = ug_id_user g.
Proof.
  destruct (fate_cases env i g) as [He|[(to & se & He & Hs)|[(to & s & ue & He & Hs & Hu)
    |(to & s & He & Hs & Hu)]]].
  - destruct (fate_no_email env i g He) as (-> & _). done.
  - destruct (fate_send_error env i g _ _ He Hs) as (-> & _). done.
  - destruct (fate_update_error env i g _ _ _ He Hs Hu) as (-> & _). done.
  - destruct (fate_succeeded env i g _ _ He Hs Hu) as (-> & _). by intros [= <-].
Qed.

Lemma failed_of_fate_id env i g e :
  failed_of (fate env i g) = Some e → failed_id_user e = ug_id_user g.
Proof.
  destruct (fate_cases env i g) as [He|[(to & se & He & Hs)|[(to & s & ue & He & Hs & Hu)
    |(to & s & He & Hs & Hu)]]].
  - destruct (fate_no_email env i g He) as (-> & _). by intros [= <-].
  - destruct (fate_send_error env i g _ _ He Hs) as (-> & _). by intros [= <-].
  - destruct (fate_update_error env i g _ _ _ He Hs Hu) as (-> & _). by intros [= <-].
  - destruct (fate_succeeded env i g _ _ He Hs Hu) as (-> & _). done.
Qed.

(** A settled result adds an entry to one list and none to the other. *)
Lemma one_entry (r : PromiseSettledResult) :
  (length (option_list (success_of r)) + length (option_list (failed_of r)) = 1)%nat.
Proof. by destruct r as [[?|?]|?]. Qed.

End dispatch_facts.

(** ** The handler *)

Section handler_facts.
Context `{JsRuntime}.
Implicit Types (env : Env) (g : UserGroup) (l : list TicketData).

Lemma dispatch_spec env sched l db0 :
  ∃ evs,
    dispatch env sched l db0
    = {| response :=
           JsonResponse
             (BodyResults msg_completed
                {| success := omap success_of (imap (fate env) (groups_of l));
                   failed := omap failed_of (imap (fate env) (groups_of l)) |})
             200;
         final_db :=
           mark_sent
             (mjoin (imap (λ i g, writes env i (email_callback g)) (groups_of l)))
             db0;
         calls := evs |} ∧
    evs ≡ₚ mjoin (imap (λ i g, trace env i (email_callback g)) (groups_of l)).
Proof.
  unfold dispatch.
  set (ps := emailPromises l).
  set (started := {| promises := ps; db := db0; log := mjoin (imap issued ps) |}).
  destruct (Promise_allSettled_spec env sched started) as (evs & -> & Hevs).
  exists evs. split.
  - rewrite collect_spec. simpl. unfold pending_writes. simpl.
    subst ps. unfold emailPromises. fold (groups_of l). rewrite !imap_fmap.
    done.
  - rewrite Hevs. unfold pending_calls. simpl.
    rewrite mjoin_imap_app. subst ps. unfold emailPromises.
    fold (groups_of l). rewrite imap_fmap. done.
Qed.

Lemma POST_dispatch CRON_SECRET request fetched env sched db0 l :
  reaches_dispatch CRON_SECRET request fetched l →
  POST CRON_SECRET request fetched env sched db0 = dispatch env sched l db0.
Proof.
  intros (Hauth & Herr & Hdata & Hne). unfold POST.
  rewrite Hauth, Herr, Hdata. simpl. by destruct l.
Qed.

(** What a run that reaches the dispatch returns, group by group. *)
Lemma POST_spec CRON_SECRET request fetched env sched db0 l :
  reaches_dispatch CRON_SECRET request fetched l →
  let o := POST CRON_SECRET request fetched env sched db0 in
  ∃ r,
    response o = JsonResponse (BodyResults msg_completed r) 200 ∧
    (∀ i g, groups_of l !! i = Some g →
       success_for (ug_id_user g) r = option_list (success_of (fate env i g)) ∧
       failed_for (ug_id_user g) r = option_list (failed_of (fate env i g))) ∧
    (∀ e, e ∈ calls o ↔
       ∃ i g, groups_of l !! i = Some g ∧ e ∈ trace env i (email_callback g)) ∧
    (∀ k, final_db o !! k ≠ db0 !! k →
       ∃ i g, groups_of l !! i = Some g ∧ succeeded env i g ∧
              k ∈ ticketIdsToUpdate g) ∧
    (∀ i g k, groups_of l !! i = Some g → succeeded env i g →
       k ∈ ticketIdsToUpdate g → final_db o !! k = (λ _, true) <$> db0 !! k).
Proof.
  intros Hreach o. subst o. rewrite (POST_dispatch _ _ _ _ _ _ _ Hreach).
  destruct (dispatch_spec env sched l db0) as (evs & -> & Hevs). simpl.
  eexists. split; [done|]. split_and!.
  - intros i g Hi. unfold success_for, failed_for. simpl. split.
    + rewrite omap_id_imap.
      apply (filter_entries_of_group success_id_user
               (λ j g', success_of (fate env j g'))); [|apply groups_of_NoDup|done].
      intros j g' e. apply success_of_fate_id.
    + rewrite omap_id_imap.
      apply (filter_entries_of_group failed_id_user
               (λ j g', failed_of (fate env j g'))); [|apply groups_of_NoDup|done].
      intros j g' e. apply failed_of_fate_id.
  - intros e. rewrite Hevs. apply elem_of_mjoin_imap.
  - intros k Hk. rewrite lookup_mark_sent in Hk.
    case_bool_decide as Hin; [|done].
    apply elem_of_mjoin_imap in Hin as (i & g & Hi & Hin).
    exists i, g. split; [done|].
    destruct (fate_cases env i g) as [He|[(to & se & He & Hs)|[(to & s & ue & He & Hs & Hu)
      |Hok]]].
    + destruct (fate_no_email env i g He) as (_ & Hw & _).
      rewrite Hw in Hin. by apply elem_of_nil in Hin.
    + destruct (fate_send_error env i g _ _ He Hs) as (_ & Hw & _).
      rewrite Hw in Hin. by apply elem_of_nil in Hin.
    + destruct (fate_update_error env i g _ _ _ He Hs Hu) as (_ & Hw & _).
      rewrite Hw in Hin. by apply elem_of_nil in Hin.
    + split; [done|]. destruct Hok as (to & s & He & Hs & Hu).
      destruct (fate_succeeded env i g _ _ He Hs Hu) as (_ & Hw & _).
      by rewrite Hw in Hin.
  - intros i g k Hi (to & s & He & Hs & Hu) Hk.
    rewrite lookup_mark_sent, bool_decide_eq_true_2; [done|].
    apply elem_of_mjoin_imap. exists i, g. split; [done|].
    destruct (fate_succeeded env i g _ _ He Hs Hu) as (_ & Hw & _).
    by rewrite Hw.
Qed.

End handler_facts.

(** ** Helper facts for the statements about calls and rows *)

Lemma issued_promise i (t : Async Inner) e : e ∈ issued i t → ev_promise e = i.
Proof.
  destruct t; simpl; intros Hin;
    try (by apply elem_of_nil in Hin);
    by apply list_elem_of_singleton in Hin as ->.
Qed.

Lemma future_promise env i (t : Async Inner) e :
  e ∈ future env i t → ev_promise e = i.
Proof.
  induction t as [a|r|p k IH|ids k IH]; simpl.
  - intros Hin. by apply elem_of_nil in Hin.
  - intros Hin. by apply elem_of_nil in Hin.
  - intros [Hin|Hin]%elem_of_app; [by eapply issued_promise | by eapply IH].
  - intros [Hin|Hin]%elem_of_app; [by eapply issued_promise | by eapply IH].
Qed.

Lemma trace_promise env i (t : Async Inner) e :
  e ∈ trace env i t → ev_promise e = i.
Proof.
  unfold trace. intros [Hin|Hin]%elem_of_app;
    [by eapply issued_promise | by eapply future_promise].
Qed.

Lemma NoDup_fmap_eq {A B} (f : A → B) (l : list A) x y :
  NoDup (f <$> l) → x ∈ l → y ∈ l → f x = f y → x = y.
Proof.
  intros Hnd [i Hi]%list_elem_of_lookup [j Hj]%list_elem_of_lookup Hxy.
  assert (i = j) as ->; [|congruence].
  eapply (NoDup_lookup _ _ _ _ Hnd); rewrite list_lookup_fmap.
  - by rewrite Hi.
  - rewrite Hj. simpl. by rewrite Hxy.
Qed.

(** With [id_tickets] a key of the fetched rows, a row identifier names
    the tickets of one user at most. *)
Lemma ticket_id_owner l g t k :
  NoDup (id_tickets <$> l) → t ∈ l → id_tickets t = k →
  g ∈ groups_of l → k ∈ (id_tickets <$> ug_tickets g) →
  user_id_of t = Some (ug_id_user g).
Proof.
  intros Hnd Ht Hk Hg (t' & Hk' & Hin')%list_elem_of_fmap.
  destruct (group_tickets_resolved l g t' Hg Hin') as [Hl' Hu'].
  assert (t = t') as -> by (eapply (NoDup_fmap_eq id_tickets); [done..|congruence]).
  done.
Qed.

Section call_facts.
Context `{JsRuntime}.
Implicit Types (env : Env) (g : UserGroup) (l : list TicketData).

(** An update call of a group names the group's tickets and comes after
    an accepted send. *)
Lemma update_call_of_group env i g e ids :
  e ∈ trace env i (email_callback g) → ev_call e = CallUpdate ids →
  ids = ticketIdsToUpdate g ∧
  ∃ to sentEmail, usable_email g = Some to ∧
    resend_answer env i (render_payload g to) = SendData sentEmail.
Proof.
  intros Hin Hcall.
  destruct (fate_cases env i g) as [He|[(to & se & He & Hs)|[(to & s & ue & He & Hs & Hu)
    |(to & s & He & Hs & Hu)]]].
  - destruct (fate_no_email env i g He) as (_ & _ & Htr).
    rewrite Htr in Hin. by apply elem_of_nil in Hin.
  - destruct (fate_send_error env i g _ _ He Hs) as (_ & _ & Htr).
    rewrite Htr in Hin. apply list_elem_of_singleton in Hin as ->. done.
  - destruct (fate_update_error env i g _ _ _ He Hs Hu) as (_ & _ & Htr).
    rewrite Htr in Hin.
    apply elem_of_cons in Hin as [->|Hin]; [done|].
    apply list_elem_of_singleton in Hin as ->. simpl in Hcall.
    injection Hcall as <-. eauto.
  - destruct (fate_succeeded env i g _ _ He Hs Hu) as (_ & _ & Htr).
    rewrite Htr in Hin.
    apply elem_of_cons in Hin as [->|Hin]; [done|].
    apply list_elem_of_singleton in Hin as ->. simpl in Hcall.
    injection Hcall as <-. eauto.
Qed.

(** The calls of a run that come from the promise at position [i]. *)
Lemma calls_of_promise env l (evs : list Event) i g :
  (∀ e, e ∈ evs ↔
     ∃ j g', groups_of l !! j = Some g' ∧ e ∈ trace env j (email_callback g')) →
  groups_of l !! i = Some g →
  ∀ e, e ∈ evs ∧ ev_promise e = i ↔ e ∈ trace env i (email_callback g).
Proof.
  intros Hevs Hi e. rewrite Hevs. split.
  - intros [(j & g' & Hj & Hin) Hp].
    apply trace_promise in Hin as Hp'. rewrite Hp in Hp'. subst j.
    rewrite Hi in Hj. by injection Hj as <-.
  - intros Hin. split; [eauto | by eapply trace_promise].
Qed.

(** A fetched row that no marked group owns keeps its flag, and no
    update call names it unless its own group was sent to. *)
Lemma row_untouched env l (db0 dbf : gmap Z bool) t :
  (∀ k, dbf !! k ≠ db0 !! k →
     ∃ i g, groups_of l !! i = Some g ∧ succeeded env i g ∧
            k ∈ ticketIdsToUpdate g) →
  NoDup (id_tickets <$> l) → t ∈ l →
  (∀ i g, groups_of l !! i = Some g →
     user_id_of t = Some (ug_id_user g) → ¬ succeeded env i g) →
  dbf !! id_tickets t = db0 !! id_tickets t.
Proof.
  intros Hchg Hnd Ht Hnot.
  destruct (decide (dbf !! id_tickets t = db0 !! id_tickets t)) as [|Hne]; [done|].
  destruct (Hchg _ Hne) as (i & g & Hi & Hok & Hin).
  destruct (Hnot i g Hi); [|done].
  eapply ticket_id_owner; [done..| |done].
  by apply list_elem_of_lookup_2 in Hi.
Qed.

Lemma row_not_named env l (evs : list Event) t e ids :
  (∀ e, e ∈ evs ↔
     ∃ j g', groups_of l !! j = Some g' ∧ e ∈ trace env j (email_callback g')) →
  NoDup (id_tickets <$> l) → t ∈ l →
  e ∈ evs → ev_call e = CallUpdate ids → id_tickets t ∈ ids →
  ∃ i g to sentEmail, groups_of l !! i = Some g ∧ ev_promise e = i ∧
    user_id_of t = Some (ug_id_user g) ∧ usable_email g = Some to ∧
    resend_answer env i (render_payload g to) = SendData sentEmail.
Proof.
  intros Hevs Hnd Ht (j & g' & Hj & Hin)%Hevs Hcall Hid.
  destruct (update_call_of_group env j g' e ids Hin Hcall) as (-> & to & s & He & Hs).
  exists j, g', to, s. split_and!; [done | by eapply trace_promise | | done..].
  eapply ticket_id_owner; [done..| |done].
  by apply list_elem_of_lookup_2 in Hj.
Qed.

(** The rows of a group that was not sent to: no update call names them
    and their flags stay as they were. *)
Lemma unsent_group_rows env l (evs : list Event) (db0 dbf : gmap Z bool) i g :
  (∀ e, e ∈ evs ↔
     ∃ j g', groups_of l !! j = Some g' ∧ e ∈ trace env j (email_callback g')) →
  (∀ k, dbf !! k ≠ db0 !! k →
     ∃ i g, groups_of l !! i = Some g ∧ succeeded env i g ∧
            k ∈ ticketIdsToUpdate g) →
  groups_of l !! i = Some g →
  (∀ to sentEmail, usable_email g = Some to →
     resend_answer env i (render_payload g to) ≠ SendData sentEmail) →
  NoDup (id_tickets <$> l) →
  (∀ e ids t, e ∈ evs → ev_call e = CallUpdate ids → t ∈ ug_tickets g →
     id_tickets t ∉ ids) ∧
  (∀ t, t ∈ ug_tickets g → dbf !! id_tickets t = db0 !! id_tickets t).
Proof.
  intros Hevs Hchg Hi Hunsent Hnd.
  assert (Hg : g ∈ groups_of l) by by apply list_elem_of_lookup_2 in Hi.
  split.
  - intros e ids t He Hcall Ht Hin.
    destruct (group_tickets_resolved l g t Hg Ht) as [Htl Hu].
    destruct (row_not_named env l evs t e ids Hevs Hnd Htl He Hcall Hin)
      as (j & g' & to & s & Hj & _ & Hu' & Hmail & Hs).
    rewrite Hu in Hu'. injection Hu' as Hu'.
    assert (i = j) as <- by by eapply groups_of_lookup_inj.
    rewrite Hi in Hj. injection Hj as <-. by eapply Hunsent.
  - intros t Ht.
    destruct (group_tickets_resolved l g t Hg Ht) as [Htl Hu].
    apply (row_untouched env l db0 dbf t Hchg Hnd Htl).
    intros j g' Hj Hu' (to & s & Hmail & Hs & _).
    rewrite Hu in Hu'. injection Hu' as Hu'.
    assert (i = j) as <- by by eapply groups_of_lookup_inj.
    rewrite Hi in Hj. injection Hj as <-. by eapply Hunsent.
Qed.

(** A group with an address makes one send call, the first of its
    calls. *)
Lemma send_call_once env i g to :
  usable_email g = Some to →
  ∃ rest,
    trace env i (email_callback g)
    = {| ev_promise := i; ev_call := CallSend (render_payload g to) |} :: rest ∧
    (∀ e p, e ∈ rest → ev_call e ≠ CallSend p).
Proof.
  intros He.
  destruct (fate_cases env i g)
    as [He'|[(to' & se & He' & Hs)|[(to' & s & ue & He' & Hs & Hu)
       |(to' & s & He' & Hs & Hu)]]]; [congruence|..];
    rewrite He in He'; injection He' as <-.
  - destruct (fate_send_error env i g _ _ He Hs) as (_ & _ & ->).
    exists []. split; [done|]. intros e p Hin. by apply elem_of_nil in Hin.
  - destruct (fate_update_error env i g _ _ _ He Hs Hu) as (_ & _ & ->).
    eexists. split; [done|].
    intros e p Hin. by apply list_elem_of_singleton in Hin as ->.
  - destruct (fate_succeeded env i g _ _ He Hs Hu) as (_ & _ & ->).
    eexists. split; [done|].
    intros e p Hin. by apply list_elem_of_singleton in Hin as ->.
Qed.

End call_facts.

(** The tickets the loop skips: the payment is null or an empty array, or
    the payment's user is. *)
Lemma resolve_user_None t :
  resolve_user t = None ↔
  first_or_self (pay_data t) = None ∨
  ∃ payData, first_or_self (pay_data t) = Some payData ∧
             first_or_self (user_data payData) = None.
Proof.
  unfold resolve_user. destruct (first_or_self (pay_data t)) as [payData|].
  - split; [eauto|]. intros [[=]|(p & [= <-] & Hp)]. done.
  - split; [by left | done].
Qed.

Lemma first_or_self_None {A} (x : Embedded A) :
  first_or_self x = None ↔ x = EmbNull ∨ x = EmbArray [].
Proof.
  destruct x as [|a|[|a l']]; simpl; split; try done; try tauto;
    by intros [[=]|[=]].
Qed.

(** When no fetched ticket resolves to a user there is no group. *)
Lemma group_tickets_unresolved l :
  Forall (λ t, resolve_user t = None) l → group_tickets l = [].
Proof.
  unfold group_tickets. induction l as [|t l IH] using rev_ind; [done|].
  intros [Hl Ht]%Forall_app. rewrite foldl_app. simpl. rewrite (IH Hl).
  rewrite Forall_singleton in Ht. unfold group_step.
  by destruct (resolve_user t).
Qed.

(** * The claims *)

Section claims.
Context `{JsRuntime}.
Implicit Types (env : Env) (g : UserGroup) (l : list TicketData).

(** C1.  For every group formed by the dispatcher, the report holds one
    entry for the group's user, in [success] or in [failed], and no
    second one: the entries of both lists that carry the user's identifier
    number one in all.  The same is stated for every fetched ticket whose
    user resolves. *)
Theorem C1_exactly_one_entry CRON_SECRET request fetched env sched db0 l :
  reaches_dispatch CRON_SECRET request fetched l →
  ∃ r,
    report_of (response (POST CRON_SECRET request fetched env sched db0)) = Some r ∧
    (∀ g, g ∈ groups_of l →
       (length (success_for (ug_id_user g) r)
        + length (failed_for (ug_id_user g) r) = 1)%nat) ∧
    (∀ t user, t ∈ l → resolve_user t = Some user →
       (length (success_for (id_user user) r)
        + length (failed_for (id_user user) r) = 1)%nat).
Proof.
  intros Hreach.
  destruct (POST_spec _ _ _ env sched db0 _ Hreach) as (r & Hresp & Hentries & _).
  exists r. rewrite Hresp. split; [done|].
  assert (Hgroups : ∀ g, g ∈ groups_of l →
            (length (success_for (ug_id_user g) r)
             + length (failed_for (ug_id_user g) r) = 1)%nat).
  { intros g [i Hi]%list_elem_of_lookup.
    destruct (Hentries i g Hi) as [-> ->]. apply one_entry. }
  split; [done|].
  intros t user Ht Hres.
  destruct (groups_of_complete l t (id_user user) Ht) as (g & Hg & <-).
  - unfold user_id_of. by rewrite Hres.
  - by apply Hgroups.
Qed.

(** C2.  The entry recorded for a group depends on the answers given to
    that group alone.  Take two runs over the same fetched tickets whose
    collaborators answer the group at position [i] alike, and anything at
    all to the other groups, in any order of arrival: the entries for the
    group's user are the same in both reports. *)
Theorem C2_sibling_independence CRON_SECRET request fetched l
    env1 env2 sched1 sched2 db1 db2 i g :
  reaches_dispatch CRON_SECRET request fetched l →
  groups_of l !! i = Some g →
  (∀ to, usable_email g = Some to →
     resend_answer env1 i (render_payload g to)
     = resend_answer env2 i (render_payload g to)) →
  supabase_answer env1 i (ticketIdsToUpdate g)
  = supabase_answer env2 i (ticketIdsToUpdate g) →
  ∃ r1 r2,
    report_of (response (POST CRON_SECRET request fetched env1 sched1 db1)) = Some r1 ∧
    report_of (response (POST CRON_SECRET request fetched env2 sched2 db2)) = Some r2 ∧
    success_for (ug_id_user g) r1 = success_for (ug_id_user g) r2 ∧
    failed_for (ug_id_user g) r1 = failed_for (ug_id_user g) r2.
Proof.
  intros Hreach Hi Hsend Hupd.
  destruct (POST_spec _ _ _ env1 sched1 db1 _ Hreach) as (r1 & Hresp1 & Hent1 & _).
  destruct (POST_spec _ _ _ env2 sched2 db2 _ Hreach) as (r2 & Hresp2 & Hent2 & _).
  assert (Hfate : fate env1 i g = fate env2 i g).
  { unfold fate, email_callback.
    destruct (usable_email g) as [to|] eqn:He; [|done].
    simpl. rewrite (Hsend to eq_refl).
    destruct (resend_answer env2 i (render_payload g to)); [|done].
    simpl. rewrite Hupd.
    by destruct (supabase_answer env2 i (ticketIdsToUpdate g)). }
  destruct (Hent1 i g Hi) as [Hs1 Hf1]. destruct (Hent2 i g Hi) as [Hs2 Hf2].
  exists r1, r2. rewrite Hresp1, Hresp2, Hs1, Hs2, Hf1, Hf2, Hfate. done.
Qed.

(** C3.  A group whose message the provider accepts and whose update the
    store accepts is reported in [success], with the user's identifier and
    the identifier the provider gave the message, and in [failed] not at
    all.  Its update call names the group's ticket identifiers and nothing
    else, and every ticket of the group ends with the flag true.  The
    group's update leaves the flag of every row outside the group as it
    finds it, whatever the table; over the whole run a row outside the
    group changes only if another group that was itself sent to and marked
    names it. *)
Theorem C3_sent_and_marked CRON_SECRET request fetched env sched db0 l
    i g to sentEmail :
  reaches_dispatch CRON_SECRET request fetched l →
  fetched_from db0 l →
  groups_of l !! i = Some g →
  usable_email g = Some to →
  resend_answer env i (render_payload g to) = SendData sentEmail →
  supabase_answer env i (ticketIdsToUpdate g) = None →
  ∃ r,
    report_of (response (POST CRON_SECRET request fetched env sched db0)) = Some r ∧
    success_for (ug_id_user g) r
    = [ {| success_id_user := ug_id_user g; email_id := sent_id sentEmail |} ] ∧
    failed_for (ug_id_user g) r = [] ∧
    (∀ ids, {| ev_promise := i; ev_call := CallUpdate ids |}
              ∈ calls (POST CRON_SECRET request fetched env sched db0)
            ↔ ids = ticketIdsToUpdate g) ∧
    (∀ t, t ∈ ug_tickets g →
       final_db (POST CRON_SECRET request fetched env sched db0) !! id_tickets t
       = Some true) ∧
    (∀ (m : gmap Z bool) k, k ∉ ticketIdsToUpdate g →
       apply_update (supabase_answer env i (ticketIdsToUpdate g))
         (ticketIdsToUpdate g) m !! k = m !! k) ∧
    (∀ k, k ∉ ticketIdsToUpdate g →
       final_db (POST CRON_SECRET request fetched env sched db0) !! k ≠ db0 !! k →
       ∃ j g', j ≠ i ∧ groups_of l !! j = Some g' ∧ succeeded env j g' ∧
               k ∈ ticketIdsToUpdate g').
Proof.
  intros Hreach [Hnd Hrows] Hi He Hs Hu.
  assert (Hg : g ∈ groups_of l) by by apply list_elem_of_lookup_2 in Hi.
  destruct (POST_spec _ _ _ env sched db0 _ Hreach)
    as (r & Hresp & Hent & Hcalls & Hchg & Hset).
  destruct (fate_succeeded env i g _ _ He Hs Hu) as (Hfate & _ & Htr).
  destruct (Hent i g Hi) as [Hsucc Hfail]. rewrite Hfate in Hsucc, Hfail.
  exists r. rewrite Hresp. split_and!; [done..| | | |].
  - intros ids.
    pose proof (calls_of_promise env l _ i g Hcalls Hi
                  {| ev_promise := i; ev_call := CallUpdate ids |}) as Hp.
    rewrite Htr in Hp. split.
    + intros Hin. destruct Hp as [Hp _].
      specialize (Hp (conj Hin eq_refl)).
      apply elem_of_cons in Hp as [[=]|Hp].
      apply list_elem_of_singleton in Hp. by injection Hp.
    + intros ->. apply Hp. right. left.
  - intros t Ht.
    destruct (group_tickets_resolved l g t Hg Ht) as [Htl _].
    rewrite Forall_forall in Hrows. destruct (Hrows t Htl) as [_ Hrow].
    rewrite (Hset i g (id_tickets t) Hi), Hrow; [done| |].
    + unfold succeeded. eauto.
    + unfold ticketIdsToUpdate. by apply list_elem_of_fmap_2.
  - intros m k Hk. rewrite Hu. simpl.
    by rewrite lookup_mark_sent, bool_decide_eq_false_2.
  - intros k Hk Hne. destruct (Hchg k Hne) as (j & g' & Hj & Hok & Hin).
    exists j, g'. split_and!; [|done..].
    intros ->. rewrite Hi in Hj. injection Hj as <-. done.
Qed.

(** C4 (as the code has it).  A group whose message the provider refuses
    is reported in [failed] with the provider's error message, or with the
    JSON text of the provider's error object when that message is empty,
    and in [success] not at all.  Its promise makes no update call, no
    update call of the run names one of its tickets, and every ticket of
    the group keeps the flag false. *)
Theorem C4_send_refused CRON_SECRET request fetched env sched db0 l
    i g to sendError :
  reaches_dispatch CRON_SECRET request fetched l →
  fetched_from db0 l →
  groups_of l !! i = Some g →
  usable_email g = Some to →
  resend_answer env i (render_payload g to) = SendError sendError →
  ∃ r,
    report_of (response (POST CRON_SECRET request fetched env sched db0)) = Some r ∧
    failed_for (ug_id_user g) r
    = [ {| failed_id_user := ug_id_user g;
           error := if Js.truthy (message sendError) then message sendError
                    else JSON_stringify sendError |} ] ∧
    success_for (ug_id_user g) r = [] ∧
    (∀ e ids, e ∈ calls (POST CRON_SECRET request fetched env sched db0) →
       ev_promise e = i → ev_call e ≠ CallUpdate ids) ∧
    (∀ e ids t, e ∈ calls (POST CRON_SECRET request fetched env sched db0) →
       ev_call e = CallUpdate ids → t ∈ ug_tickets g → id_tickets t ∉ ids) ∧
    (∀ t, t ∈ ug_tickets g →
       final_db (POST CRON_SECRET request fetched env sched db0) !! id_tickets t
       = Some false).
Proof.
  intros Hreach [Hnd Hrows] Hi He Hs.
  assert (Hg : g ∈ groups_of l) by by apply list_elem_of_lookup_2 in Hi.
  destruct (POST_spec _ _ _ env sched db0 _ Hreach)
    as (r & Hresp & Hent & Hcalls & Hchg & Hset).
  destruct (fate_send_error env i g _ _ He Hs) as (Hfate & _ & Htr).
  destruct (Hent i g Hi) as [Hsucc Hfail]. rewrite Hfate in Hsucc, Hfail.
  destruct (unsent_group_rows env l _ db0 _ i g Hcalls Hchg Hi) as [Hnamed Hkept];
    [|done|].
  { intros to' s Hto' Hs'. rewrite He in Hto'. injection Hto' as <-. congruence. }
  exists r. rewrite Hresp. split_and!; [done..| |done|].
  - intros e ids Hin Hp Hcall.
    pose proof (proj1 (calls_of_promise env l _ i g Hcalls Hi e) (conj Hin Hp)) as Hin'.
    rewrite Htr in Hin'. apply list_elem_of_singleton in Hin' as ->. done.
  - intros t Ht. rewrite (Hkept t Ht).
    destruct (group_tickets_resolved l g t Hg Ht) as [Htl _].
    rewrite Forall_forall in Hrows. by destruct (Hrows t Htl).
Qed.

(** C5.  A group whose message the provider accepts and whose update the
    store refuses is reported in [failed], and not in [success], with a
    text that says the e-mail was sent and the update failed, followed by
    the store's error message; the send call was made. *)
Theorem C5_update_refused CRON_SECRET request fetched env sched db0 l
    i g to sentEmail updateError :
  reaches_dispatch CRON_SECRET request fetched l →
  groups_of l !! i = Some g →
  usable_email g = Some to →
  resend_answer env i (render_payload g to) = SendData sentEmail →
  supabase_answer env i (ticketIdsToUpdate g) = Some updateError →
  ∃ r,
    report_of (response (POST CRON_SECRET request fetched env sched db0)) = Some r ∧
    failed_for (ug_id_user g) r
    = [ {| failed_id_user := ug_id_user g;
           error := "Email sent, but DB update failed: " +:+ pg_message updateError |} ] ∧
    success_for (ug_id_user g) r = [] ∧
    {| ev_promise := i; ev_call := CallSend (render_payload g to) |}
      ∈ calls (POST CRON_SECRET request fetched env sched db0).
Proof.
  intros Hreach Hi He Hs Hu.
  destruct (POST_spec _ _ _ env sched db0 _ Hreach)
    as (r & Hresp & Hent & Hcalls & _).
  destruct (fate_update_error env i g _ _ _ He Hs Hu) as (Hfate & _ & Htr).
  destruct (Hent i g Hi) as [Hsucc Hfail]. rewrite Hfate in Hsucc, Hfail.
  exists r. rewrite Hresp. split_and!; [done..|].
  apply Hcalls. exists i, g. split; [done|]. rewrite Htr. left.
Qed.

(** C6.  A group whose user has no usable address (a null or an empty
    [email]) is reported in [failed] with the text that the user has no
    registered e-mail, and in [success] not at all.  Its promise makes no
    call, neither to the provider nor to the store; no update call of the
    run names one of its tickets, and every ticket of the group keeps the
    flag false. *)
Theorem C6_missing_email CRON_SECRET request fetched env sched db0 l i g :
  reaches_dispatch CRON_SECRET request fetched l →
  fetched_from db0 l →
  groups_of l !! i = Some g →
  ug_email g = None ∨ ug_email g = Some EmptyString →
  ∃ r,
    report_of (response (POST CRON_SECRET request fetched env sched db0)) = Some r ∧
    failed_for (ug_id_user g) r
    = [ {| failed_id_user := ug_id_user g;
           error := "El usuario no tiene un email registrado." |} ] ∧
    success_for (ug_id_user g) r = [] ∧
    (∀ e, e ∈ calls (POST CRON_SECRET request fetched env sched db0) →
       ev_promise e ≠ i) ∧
    (∀ e ids t, e ∈ calls (POST CRON_SECRET request fetched env sched db0) →
       ev_call e = CallUpdate ids → t ∈ ug_tickets g → id_tickets t ∉ ids) ∧
    (∀ t, t ∈ ug_tickets g →
       final_db (POST CRON_SECRET request fetched env sched db0) !! id_tickets t
       = Some false).
Proof.
  intros Hreach [Hnd Hrows] Hi Hmail.
  assert (Hg : g ∈ groups_of l) by by apply list_elem_of_lookup_2 in Hi.
  assert (He : usable_email g = None).
  { unfold usable_email. by destruct Hmail as [-> | ->]. }
  destruct (POST_spec _ _ _ env sched db0 _ Hreach)
    as (r & Hresp & Hent & Hcalls & Hchg & Hset).
  destruct (fate_no_email env i g He) as (Hfate & _ & Htr).
  destruct (Hent i g Hi) as [Hsucc Hfail]. rewrite Hfate in Hsucc, Hfail.
  destruct (unsent_group_rows env l _ db0 _ i g Hcalls Hchg Hi) as [Hnamed Hkept];
    [|done|].
  { intros to' s Hto'. congruence. }
  exists r. rewrite Hresp. split_and!; [done..| |done|].
  - intros e Hin Hp.
    pose proof (proj1 (calls_of_promise env l _ i g Hcalls Hi e) (conj Hin Hp)) as Hin'.
    rewrite Htr in Hin'. by apply elem_of_nil in Hin'.
  - intros t Ht. rewrite (Hkept t Ht).
    destruct (group_tickets_resolved l g t Hg Ht) as [Htl _].
    rewrite Forall_forall in Hrows. by destruct (Hrows t Htl).
Qed.

(** C7.  When the fetch of the eligible tickets returns an error, an
    authorized request is answered with status 500 and the error's
    message, no call is made to the provider or to the store, and no row
    changes.  When the fetch returns no error and no ticket (a null or an
    empty list), the answer is the message that nothing is pending, with
    status 200 and no error field, and again nothing is called. *)
Theorem C7_fetch_error_and_empty CRON_SECRET request fetched env sched db0 :
  authorized CRON_SECRET request = true →
  (∀ e, fetchError fetched = Some e →
     POST CRON_SECRET request fetched env sched db0
     = {| response := JsonResponse (BodyError msg_fetch_error (pg_message e)) 500;
          final_db := db0; calls := [] |}) ∧
  (fetchError fetched = None →
   data fetched = None ∨ data fetched = Some [] →
     POST CRON_SECRET request fetched env sched db0
     = {| response := JsonResponse (BodyMessage msg_nothing_pending) 200;
          final_db := db0; calls := [] |}).
Proof.
  intros Hauth. unfold POST. rewrite Hauth. simpl. split.
  - by intros e ->.
  - by intros -> [-> | ->].
Qed.

(** C8.  The groups are a function of the fetched list alone.  There is
    one group per user identifier; the tickets of a group are the fetched
    tickets that resolve to its user, all of them and in fetch order, and
    there is at least one.  Two fetched tickets of one user are in one
    group, two tickets of different users are never in the same group.  A
    group with an address makes one send call, whose payload counts and
    lists all of these tickets. *)
Theorem C8_grouping l :
  NoDup (ug_id_user <$> groups_of l) ∧
  (∀ g, g ∈ groups_of l →
     ug_tickets g = tickets_of (ug_id_user g) l ∧ ug_tickets g ≠ []) ∧
  (∀ t1 t2 u1 u2, t1 ∈ l → t2 ∈ l →
     resolve_user t1 = Some u1 → resolve_user t2 = Some u2 →
     (id_user u1 = id_user u2 →
        ∃ g, g ∈ groups_of l ∧ t1 ∈ ug_tickets g ∧ t2 ∈ ug_tickets g) ∧
     (id_user u1 ≠ id_user u2 →
        ∀ g, g ∈ groups_of l → ¬ (t1 ∈ ug_tickets g ∧ t2 ∈ ug_tickets g))) ∧
  (∀ env i g to, groups_of l !! i = Some g → usable_email g = Some to →
     ∃ rest,
       trace env i (email_callback g)
       = {| ev_promise := i; ev_call := CallSend (render_payload g to) |} :: rest ∧
       (∀ e p, e ∈ rest → ev_call e ≠ CallSend p) ∧
       ticketCount (mail_react (render_payload g to))
       = length (tickets_of (ug_id_user g) l) ∧
       props_tickets (mail_react (render_payload g to))
       = Js.join ", " ((λ t, Js.padStart 4 "0" (tickets t))
                         <$> tickets_of (ug_id_user g) l)).
Proof.
  split_and!.
  - apply groups_of_NoDup.
  - intros g Hg. destruct (groups_of_spec l g Hg) as (Htk & t & user & Hhd & _).
    split; [done|]. intros Hnil. by rewrite Hnil in Hhd.
  - intros t1 t2 u1 u2 Ht1 Ht2 Hr1 Hr2.
    assert (Hu1 : user_id_of t1 = Some (id_user u1))
      by (unfold user_id_of; by rewrite Hr1).
    assert (Hu2 : user_id_of t2 = Some (id_user u2))
      by (unfold user_id_of; by rewrite Hr2).
    split.
    + intros Heq. destruct (groups_of_complete l t1 _ Ht1 Hu1) as (g & Hg & Hid).
      destruct (groups_of_spec l g Hg) as (Htk & _).
      exists g. rewrite Htk, !elem_of_tickets_of, Hid. split_and!; [done..|].
      by rewrite Heq.
    + intros Hne g Hg [Hin1 Hin2].
      destruct (group_tickets_resolved l g t1 Hg Hin1) as [_ Hg1].
      destruct (group_tickets_resolved l g t2 Hg Hin2) as [_ Hg2].
      congruence.
  - intros env i g to Hi He.
    assert (Hg : g ∈ groups_of l) by by apply list_elem_of_lookup_2 in Hi.
    destruct (groups_of_spec l g Hg) as (Htk & _).
    destruct (send_call_once env i g to He) as (rest & Htr & Hrest).
    exists rest. split_and!; [done..| |].
    + simpl. unfold padded_tickets. by rewrite length_fmap, Htk.
    + simpl. unfold padded_tickets, Js.String_of_string. by rewrite Htk.
Qed.

(** C9 (as the code has it).  A group with an address makes the send call
    whose payload is [render_payload], and no other send call.  The payload
    lists the group's ticket codes in order, separated by a comma and a
    space, each with the zeros in front that it lacks to be four characters
    long.  The name is the user's name with [toUpperCase] applied to its
    first character; the subject carries it, and the template gets it as
    the display name unless it is empty, in which case the template gets
    'Participante'. *)
Theorem C9_rendering CRON_SECRET request fetched env sched db0 l i g to :
  reaches_dispatch CRON_SECRET request fetched l →
  groups_of l !! i = Some g →
  usable_email g = Some to →
  {| ev_promise := i; ev_call := CallSend (render_payload g to) |}
    ∈ calls (POST CRON_SECRET request fetched env sched db0) ∧
  (∀ e p, e ∈ calls (POST CRON_SECRET request fetched env sched db0) →
     ev_promise e = i → ev_call e = CallSend p → p = render_payload g to) ∧
  mail_to (render_payload g to) = to ∧
  props_tickets (mail_react (render_payload g to))
  = Js.join ", "
      ((λ t, Js.repeat (4 - String.length (tickets t)) "0" +:+ tickets t)
         <$> ug_tickets g) ∧
  mail_subject (render_payload g to)
  = "Tu Compra ha sido Aprobada "
    +:+ (toUpperCase (Js.charAt0 (ug_name g)) +:+ Js.slice 1 (ug_name g)) +:+ " " ∧
  props_name (mail_react (render_payload g to))
  = (if Js.truthy (toUpperCase (Js.charAt0 (ug_name g)) +:+ Js.slice 1 (ug_name g))
     then toUpperCase (Js.charAt0 (ug_name g)) +:+ Js.slice 1 (ug_name g)
     else "Participante").
Proof.
  intros Hreach Hi He.
  destruct (POST_spec _ _ _ env sched db0 _ Hreach) as (r & _ & _ & Hcalls & _).
  destruct (send_call_once env i g to He) as (rest & Htr & Hrest).
  split_and!; [| |done| |done..].
  - apply Hcalls. exists i, g. split; [done|]. rewrite Htr. left.
  - intros e p Hin Hp Hcall.
    pose proof (proj1 (calls_of_promise env l _ i g Hcalls Hi e) (conj Hin Hp)) as Hin'.
    rewrite Htr in Hin'. apply elem_of_cons in Hin' as [->|Hin'].
    + simpl in Hcall. by injection Hcall.
    + by destruct (Hrest e p Hin').
  - simpl. unfold padded_tickets, Js.String_of_string. f_equal.
    apply list_fmap_ext. intros j t _. apply padStart_zero.
Qed.

(** C10.  A fetched ticket that resolves to no user is skipped.  The
    groups are the ones formed without it, so the whole outcome (report,
    calls, table) is that of the dispatch over the other tickets; the
    ticket is in no group, no update call names it, and it keeps the flag
    false. *)
Theorem C10_unresolved_skipped CRON_SECRET request fetched env sched db0 l1 t l2 :
  reaches_dispatch CRON_SECRET request fetched (l1 ++ t :: l2) →
  fetched_from db0 (l1 ++ t :: l2) →
  resolve_user t = None →
  group_tickets (l1 ++ t :: l2) = group_tickets (l1 ++ l2) ∧
  POST CRON_SECRET request fetched env sched db0
  = dispatch env sched (l1 ++ l2) db0 ∧
  (∀ g, g ∈ groups_of (l1 ++ t :: l2) → t ∉ ug_tickets g) ∧
  (∀ e ids, e ∈ calls (POST CRON_SECRET request fetched env sched db0) →
     ev_call e = CallUpdate ids → id_tickets t ∉ ids) ∧
  final_db (POST CRON_SECRET request fetched env sched db0) !! id_tickets t
  = Some false.
Proof.
  intros Hreach [Hnd Hrows] Hres.
  assert (Hgroups : group_tickets (l1 ++ t :: l2) = group_tickets (l1 ++ l2)).
  { unfold group_tickets. rewrite !foldl_app. simpl.
    unfold group_step at 2. by rewrite Hres. }
  assert (Huid : user_id_of t = None) by (unfold user_id_of; by rewrite Hres).
  assert (Ht : t ∈ l1 ++ t :: l2) by (apply elem_of_app; right; left).
  destruct (POST_spec _ _ _ env sched db0 _ Hreach)
    as (r & _ & _ & Hcalls & Hchg & _).
  split_and!; [done| | | |].
  - rewrite (POST_dispatch _ _ _ _ _ _ _ Hreach).
    unfold dispatch, emailPromises. by rewrite Hgroups.
  - intros g Hg Hin.
    destruct (group_tickets_resolved _ g t Hg Hin) as [_ Hu]. congruence.
  - intros e ids He Hcall Hin.
    destruct (row_not_named env _ _ t e ids Hcalls Hnd Ht He Hcall Hin)
      as (j & g' & to & s & _ & _ & Hu & _). congruence.
  - rewrite (row_untouched env _ db0 _ t Hchg Hnd Ht).
    + rewrite Forall_forall in Hrows. by destruct (Hrows t Ht).
    + intros j g' _ Hu. congruence.
Qed.

End claims.

(** The order in which the answers arrive changes neither the response nor
    the table, and the calls are the same up to their order. *)
Lemma dispatch_any_schedule `{JsRuntime} env sched1 sched2 l db0 :
  response (dispatch env sched1 l db0) = response (dispatch env sched2 l db0) ∧
  final_db (dispatch env sched1 l db0) = final_db (dispatch env sched2 l db0) ∧
  calls (dispatch env sched1 l db0) ≡ₚ calls (dispatch env sched2 l db0).
Proof.
  destruct (dispatch_spec env sched1 l db0) as (evs1 & -> & Hevs1).
  destruct (dispatch_spec env sched2 l db0) as (evs2 & -> & Hevs2).
  simpl. by rewrite Hevs1, Hevs2.
Qed.

(** * Further properties of the grouping *)

Lemma head_filter_split {A} (P : A → Prop) `{∀ x, Decision (P x)} (l : list A) t :
  head (filter P l) = Some t →
  ∃ l1 l2, l = l1 ++ t :: l2 ∧ Forall (λ x, ¬ P x) l1 ∧ P t.
Proof.
  induction l as [|x l IH]; [done|].
  rewrite filter_cons. destruct (decide (P x)) as [Hx|Hx]; simpl.
  - intros [= ->]. exists [], l. by split_and!.
  - intros (l1 & l2 & -> & Hl1 & Ht)%IH.
    exists (x :: l1), l2. split_and!; [done| |done]. by constructor.
Qed.

(** X13.  The columns of a group (name, address, card) are those of the
    user of the first fetched ticket that resolves to the group's user
    identifier; what later tickets of the same identifier carry is not
    looked at. *)
Theorem X13_first_row_gives_the_columns (l : list TicketData) (g : UserGroup) :
  g ∈ groups_of l →
  ∃ l1 t l2 user,
    l = l1 ++ t :: l2 ∧
    Forall (λ t', user_id_of t' ≠ Some (ug_id_user g)) l1 ∧
    resolve_user t = Some user ∧
    id_user user = ug_id_user g ∧
    ug_name g = name user ∧ ug_email g = email user ∧
    ug_id_card g = id_card user.
Proof.
  intros (Htk & t & user & Hhd & Hres & Hid & Hname & Hmail & Hcard)%groups_of_spec.
  rewrite Htk in Hhd. unfold tickets_of in Hhd.
  apply head_filter_split in Hhd as (l1 & l2 & -> & Hl1 & _).
  exists l1, t, l2, user. by split_and!.
Qed.

Lemma mjoin_fmap_nil {A B} (ids : list A) :
  mjoin ((λ _, @nil B) <$> ids) = [].
Proof. induction ids as [|x ids IH]; [done|]. by rewrite fmap_cons. Qed.

Lemma mjoin_fmap_app {A B} (a b : A → list B) (ids : list A) :
  mjoin ((λ x, a x ++ b x) <$> ids) ≡ₚ mjoin (a <$> ids) ++ mjoin (b <$> ids).
Proof.
  induction ids as [|x ids IH]; [done|].
  rewrite !fmap_cons. simpl. rewrite IH.
  rewrite <- !(assoc (++)). f_equiv.
  rewrite !(assoc (++)). f_equiv. apply Permutation_app_comm.
Qed.

Lemma mjoin_fmap_select (t : TicketData) (o : option Z) (ids : list Z) :
  NoDup ids →
  mjoin ((λ uid, if decide (o = Some uid) then [t] else []) <$> ids)
  = if decide (o ∈ Some <$> ids) then [t] else [].
Proof.
  induction ids as [|x ids IH]; intros Hnd.
  - rewrite decide_False; [done|]. apply not_elem_of_nil.
  - apply NoDup_cons in Hnd as [Hx Hnd]. rewrite !fmap_cons. simpl.
    rewrite (IH Hnd). destruct (decide (o = Some x)) as [->|Hox].
    + rewrite decide_False.
      * rewrite decide_True; [done|]. left.
      * intros (uid & [= <-] & Hin)%list_elem_of_fmap. done.
    + simpl. apply decide_ext. rewrite elem_of_cons. split; [by right|].
      by intros [?|?].
Qed.

Lemma mjoin_tickets_of (ids : list Z) (l : list TicketData) :
  NoDup ids →
  (∀ t uid, t ∈ l → user_id_of t = Some uid → uid ∈ ids) →
  mjoin ((λ uid, tickets_of uid l) <$> ids) ≡ₚ resolved l.
Proof.
  intros Hnd. induction l as [|t l IH]; intros Hcov.
  - rewrite (list_fmap_ext _ (λ _, @nil TicketData)) by done.
    by rewrite mjoin_fmap_nil.
  - assert (Hsplit : ∀ uid, tickets_of uid (t :: l)
              = (if decide (user_id_of t = Some uid) then [t] else [])
                ++ tickets_of uid l).
    { intros uid. unfold tickets_of. rewrite filter_cons. by case_decide. }
    rewrite (list_fmap_ext _ (λ uid,
               (if decide (user_id_of t = Some uid) then [t] else [])
               ++ tickets_of uid l)) by (intros; apply Hsplit).
    rewrite (mjoin_fmap_app
               (λ uid, if decide (user_id_of t = Some uid) then [t] else [])
               (λ uid, tickets_of uid l)).
    rewrite IH by (intros t' uid Ht'; apply Hcov; by right).
    rewrite mjoin_fmap_select by done.
    unfold resolved. rewrite filter_cons. unfold user_id_of in *.
    destruct (resolve_user t) as [user|] eqn:Hres; simpl.
    + rewrite decide_True; [done|].
      apply list_elem_of_fmap_2, (Hcov t); [left|]. by rewrite Hres.
    + rewrite decide_False; [done|].
      by intros (uid & [=] & _)%list_elem_of_fmap.
Qed.

Lemma length_mjoin_nonempty {A} (ls : list (list A)) :
  Forall (λ x, x ≠ []) ls → (length ls ≤ length (mjoin ls))%nat.
Proof.
  induction 1 as [|x ls Hx _ IH]; [done|].
  simpl. rewrite length_app. destruct x; [done|]. simpl. lia.
Qed.

(** X14.  Grouping is a partition of the fetched tickets that resolve to
    a user: put together, the tickets of all groups are those tickets,
    each as many times as it was fetched, and none that does not resolve.
    There are no more groups than such tickets. *)
Theorem X14_groups_partition_resolved_tickets (l : list TicketData) :
  mjoin (ug_tickets <$> groups_of l) ≡ₚ resolved l ∧
  (length (groups_of l) ≤ length (resolved l))%nat.
Proof.
  assert (Hperm : mjoin (ug_tickets <$> groups_of l) ≡ₚ resolved l).
  { rewrite (list_fmap_ext ug_tickets (λ g, tickets_of (ug_id_user g) l)).
    - rewrite (list_fmap_compose ug_id_user (λ uid, tickets_of uid l)).
      apply mjoin_tickets_of; [apply groups_of_NoDup|].
      intros t uid Ht Hu.
      destruct (groups_of_complete l t uid Ht Hu) as (g & Hg & <-).
      by apply list_elem_of_fmap_2.
    - intros i g Hi%list_elem_of_lookup_2. by apply groups_of_spec. }
  split; [done|].
  rewrite <- Hperm, <- (length_fmap ug_tickets).
  apply length_mjoin_nonempty, Forall_forall.
  intros ts (g & -> & Hg)%list_elem_of_fmap.
  destruct (groups_of_spec l g Hg) as (_ & t & user & Hhd & _).
  intros Hnil. by rewrite Hnil in Hhd.
Qed.

Lemma tickets_of_idemp (uid : Z) (l : list TicketData) :
  tickets_of uid (tickets_of uid l) = tickets_of uid l.
Proof.
  unfold tickets_of. induction l as [|t l IH]; [done|].
  rewrite filter_cons. case_decide as Ht; [|done].
  rewrite filter_cons, decide_True by done. by rewrite IH.
Qed.

Lemma NoDup_constant {A} (x : A) (l : list A) :
  NoDup l → (∀ y, y ∈ l → y = x) → (length l ≤ 1)%nat.
Proof.
  intros Hnd Hall. destruct l as [|a [|b l]]; simpl; [lia..|].
  apply NoDup_cons in Hnd as [Hab _]. destruct Hab.
  rewrite (Hall a), (Hall b); [left|right; left|left].
Qed.

(** X18.  A group depends on the fetched tickets of its own user only:
    grouping those tickets alone gives that one group, the same in every
    column and with the same tickets in the same order.  What is fetched
    for other users, or for no user, does not change it. *)
Theorem X18_group_depends_on_own_tickets (l : list TicketData) (g : UserGroup) :
  g ∈ groups_of l →
  groups_of (tickets_of (ug_id_user g) l) = [g].
Proof.
  intros Hg.
  destruct (groups_of_spec l g Hg)
    as (Htk & t & user & Hhd & Hres & Hid & Hname & Hmail & Hcard).
  set (uid := ug_id_user g) in *. set (l' := tickets_of uid l) in *.
  assert (Ht : t ∈ l').
  { rewrite <- Htk. destruct (ug_tickets g); [done|]. injection Hhd as ->. left. }
  assert (Hown : ∀ g', g' ∈ groups_of l' →
            ug_id_user g' = uid ∧ ug_tickets g' = l' ∧
            ug_name g' = ug_name g ∧ ug_email g' = ug_email g ∧
            ug_id_card g' = ug_id_card g).
  { intros g' Hg'.
    destruct (groups_of_spec l' g' Hg')
      as (Htk' & t' & user' & Hhd' & Hres' & Hid' & Hname' & Hmail' & Hcard').
    assert (Hin' : t' ∈ ug_tickets g').
    { destruct (ug_tickets g'); [done|]. injection Hhd' as ->. left. }
    destruct (group_tickets_resolved l' g' t' Hg' Hin') as [Hl' Hu'].
    apply elem_of_tickets_of in Hl' as [_ Hu].
    rewrite Hu in Hu'. injection Hu' as Hu'.
    assert (Htks : ug_tickets g' = l').
    { rewrite Htk', <- Hu'. apply tickets_of_idemp. }
    rewrite Htks, <- Htk, Hhd in Hhd'. injection Hhd' as <-.
    rewrite Hres in Hres'. injection Hres' as <-.
    split_and!; [done|done|congruence..]. }
  assert (Hlen : (length (groups_of l') ≤ 1)%nat).
  { rewrite <- (length_fmap ug_id_user).
    apply (NoDup_constant uid); [apply groups_of_NoDup|].
    intros y (g' & -> & Hg')%list_elem_of_fmap. by apply Hown. }
  destruct (groups_of_complete l' t uid Ht) as (g' & Hg' & _).
  { by apply elem_of_tickets_of in Ht as [_ ?]. }
  destruct (groups_of l') as [|g0 [|g1 rest]] eqn:Hgs; simpl in Hlen;
    [by apply elem_of_nil in Hg'| |lia].
  apply list_elem_of_singleton in Hg' as ->.
  destruct (Hown g0) as (H1 & H2 & H3 & H4 & H5); [left|].
  f_equal. destruct g0, g. simpl in *. subst l'. rewrite <- Htk in H2.
  unfold uid in H1. congruence.
Qed.

(** * The order of [Object.values] *)

Lemma digit_of_pretty_N_char (d : N) :
  (d < 10)%N → JsObject.digit_of (pretty_N_char d) = Some d.
Proof.
  intros Hd.
  assert (d = 0 ∨ d = 1 ∨ d = 2 ∨ d = 3 ∨ d = 4 ∨ d = 5 ∨ d = 6 ∨ d = 7
          ∨ d = 8 ∨ d = 9)%N as Hcases by lia.
  destruct_or!; subst; reflexivity.
Qed.

Lemma parse_digits_pretty_N_go (x : N) (s : string) :
  JsObject.parse_digits 0 (pretty_N_go x s) = JsObject.parse_digits x s.
Proof.
  revert s. induction (N.lt_wf_0 x) as [x _ IH]; intros s.
  destruct (decide (x = 0)%N) as [->|Hx].
  - by rewrite pretty_N_go_0.
  - rewrite pretty_N_go_step by lia.
    rewrite IH by (apply N.div_lt; lia).
    cbn [JsObject.parse_digits].
    rewrite digit_of_pretty_N_char by (apply N.mod_lt; lia).
    f_equal. rewrite (N.div_mod x 10) at 3 by lia. done.
Qed.

Lemma pretty_N_go_head (x : N) (s : string) :
  (0 < x)%N → ∃ c r, pretty_N_go x s = String c r ∧ c ≠ "0"%char.
Proof.
  revert s. induction (N.lt_wf_0 x) as [x _ IH]; intros s Hx.
  rewrite pretty_N_go_step by done.
  destruct (decide (x `div` 10 = 0)%N) as [Hdiv|Hdiv].
  - rewrite Hdiv, pretty_N_go_0. eexists _, _. split; [done|].
    assert (x < 10)%N by (apply N.div_small_iff in Hdiv; lia).
    rewrite N.mod_small by done.
    intros Hc. apply (pretty_N_char_inj x 0) in Hc; lia.
  - apply IH; [apply N.div_lt; lia | by apply N.neq_0_lt_0].
Qed.

Lemma array_index_String_of_number (uid : Z) :
  JsObject.array_index (Js.String_of_number uid)
  = if decide (index_id uid) then Some (Z.to_N uid) else None.
Proof.
  unfold Js.String_of_number, pretty, pretty_Z, index_id.
  destruct uid as [|p|p].
  - by rewrite decide_True by lia.
  - unfold pretty, pretty_positive, pretty, pretty_N.
    rewrite decide_False by done.
    destruct (pretty_N_go_head (N.pos p) "") as (c & r & Heq & Hc); [lia|].
    unfold JsObject.array_index. rewrite Heq.
    rewrite (bool_decide_eq_false_2 _ Hc). cbn [andb].
    rewrite <- Heq, parse_digits_pretty_N_go. cbn [JsObject.parse_digits].
    change (Z.to_N (Z.pos p)) with (N.pos p).
    destruct (N.ltb_spec (N.pos p) (2 ^ 32 - 1)).
    + rewrite decide_True; [done|]. lia.
    + rewrite decide_False; [done|]. lia.
  - rewrite decide_False by lia. reflexivity.
Qed.

Lemma filter_fmap_ug_id (P : Z → Prop)
    `{H1 : ∀ g, Decision (P (ug_id_user g))} `{H2 : ∀ x, Decision (P x)}
    (gs : list UserGroup) :
  ug_id_user <$> filter (λ g, P (ug_id_user g)) gs = filter P (ug_id_user <$> gs).
Proof.
  induction gs as [|g gs IH]; [done|].
  rewrite fmap_cons, !filter_cons.
  destruct (decide (P (ug_id_user g))), (decide (P (ug_id_user g)));
    rewrite ?fmap_cons, IH; done.
Qed.

Lemma indexed_named_of_groups (o : JsObject.t UserGroup) :
  Forall (λ kv, kv.1 = Js.String_of_number (ug_id_user kv.2)) o →
  JsObject.indexed o
  = (λ g, (Z.to_N (ug_id_user g), g)) <$> filter (λ g, index_id (ug_id_user g)) o.*2 ∧
  JsObject.named o = filter (λ g, ¬ index_id (ug_id_user g)) o.*2.
Proof.
  induction 1 as [|[k g] o Hk _ [IHi IHn]]; [done|].
  simpl in Hk. subst k. cbn [JsObject.indexed JsObject.named].
  rewrite array_index_String_of_number, fmap_cons, !filter_cons. simpl.
  destruct (decide (index_id (ug_id_user g))) as [Hi|Hi].
  - rewrite decide_False by tauto. by rewrite fmap_cons, IHi, IHn.
  - rewrite decide_True by done. by rewrite IHi, IHn.
Qed.

Global Instance index_le_transitive {V} : Transitive (@JsObject.index_le V).
Proof. intros x y z. unfold JsObject.index_le. lia. Qed.

Global Instance index_le_total {V} : Total (@JsObject.index_le V).
Proof. intros x y. unfold JsObject.index_le. lia. Qed.

Lemma StronglySorted_fmap_strict {A} (R : relation A) (f : A → Z) (L : list A) :
  StronglySorted R L →
  (∀ x y, x ∈ L → y ∈ L → R x y → f x ≤ f y) →
  NoDup (f <$> L) →
  StronglySorted Z.lt (f <$> L).
Proof.
  induction 1 as [|x L HL IH Hx]; intros Hle Hnd; [constructor|].
  rewrite fmap_cons in Hnd |- *. apply NoDup_cons in Hnd as [Hnx Hnd].
  constructor.
  - apply IH; [|done]. intros y z Hy Hz. apply Hle; by right.
  - apply Forall_fmap, Forall_forall. intros y Hy. simpl.
    assert (f x ≤ f y).
    { apply Hle; [left|by right|]. rewrite Forall_forall in Hx. by apply Hx. }
    assert (f x ≠ f y).
    { intros Heq. apply Hnx. rewrite Heq. by apply list_elem_of_fmap_2. }
    lia.
Qed.

Lemma first_seen_snoc (ids : list Z) (uid : Z) :
  first_seen (ids ++ [uid])
  = if decide (uid ∈ first_seen ids) then first_seen ids
    else first_seen ids ++ [uid].
Proof. unfold first_seen. by rewrite foldl_app. Qed.

(** The keys of [usersToEmail] are the numerals of the user identifiers
    in the order in which the loop meets them first. *)
Lemma keys_group_tickets (l : list TicketData) :
  (group_tickets l).*1 = Js.String_of_number <$> first_seen (omap user_id_of l).
Proof.
  induction l as [|t l IH] using rev_ind; [done|].
  unfold group_tickets in *. rewrite foldl_app, omap_app. simpl.
  set (o := foldl group_step [] l) in *.
  unfold group_step, user_id_of at 2.
  destruct (resolve_user t) as [user|] eqn:Hres; simpl.
  - rewrite first_seen_snoc. cbv zeta.
    set (k0 := Js.String_of_number (id_user user)).
    set (fresh := {| ug_id_user := id_user user; ug_name := name user;
                     ug_email := email user; ug_id_card := id_card user;
                     ug_tickets := [] |}).
    destruct (JsObject.get k0 o) as [g|] eqn:Hget.
    + rewrite Hget, keys_set, Hget, IH.
      rewrite decide_True; [done|].
      assert (Hk : k0 ∈ o.*1).
      { destruct (decide (k0 ∈ o.*1)) as [|Hn]; [done|].
        apply get_None in Hn. congruence. }
      rewrite IH in Hk. apply list_elem_of_fmap in Hk as (uid & Hk & Hin).
      by apply (inj Js.String_of_number) in Hk as ->.
    + rewrite get_set, bool_decide_eq_true_2 by done.
      rewrite keys_set, get_set, bool_decide_eq_true_2 by done.
      rewrite keys_set, Hget, IH.
      rewrite decide_False.
      * by rewrite fmap_app.
      * intros Hin. apply get_None in Hget. apply Hget. rewrite IH.
        by apply list_elem_of_fmap_2.
  - by rewrite app_nil_r.
Qed.

(** X17.  The groups come in the order of [Object.values]: first the
    users whose identifier is an array index (0 to 2^32 - 2), by ascending
    identifier whatever the order of the fetch, then the other users
    (a negative or a larger identifier) in the order in which the fetch
    meets them first. *)
Theorem X17_groups_in_key_order (l : list TicketData) :
  ∃ ascending,
    ug_id_user <$> groups_of l
    = ascending ++ filter (λ uid, ¬ index_id uid) (first_seen (omap user_id_of l)) ∧
    ascending ≡ₚ filter index_id (first_seen (omap user_id_of l)) ∧
    StronglySorted Z.lt ascending.
Proof.
  pose proof (group_tickets_grouped l) as Hg.
  pose proof (keys_of_grouped _ _ Hg) as Hkeys.
  destruct Hg as (Hnd & Hget & _).
  set (o := group_tickets l) in *.
  assert (Hids : ug_id_user <$> o.*2 = first_seen (omap user_id_of l)).
  { apply (inj (fmap Js.String_of_number)).
    rewrite <- keys_group_tickets. fold o. by rewrite Hkeys, list_fmap_compose. }
  destruct (indexed_named_of_groups o) as [Hindexed Hnamed].
  { apply Forall_forall. intros [k g] Hin. simpl.
    apply (elem_of_get _ _ _ Hnd) in Hin. by destruct (Hget _ _ Hin). }
  set (L := merge_sort JsObject.index_le (JsObject.indexed o)).
  assert (HL : L ≡ₚ JsObject.indexed o) by apply merge_sort_Permutation.
  assert (Helem : ∀ x, x ∈ L → x.1 = Z.to_N (ug_id_user x.2) ∧ index_id (ug_id_user x.2)).
  { intros x. rewrite HL, Hindexed.
    intros (g & -> & Hg%list_elem_of_filter)%list_elem_of_fmap. simpl. tauto. }
  assert (Hperm : ug_id_user <$> (snd <$> L)
                  ≡ₚ filter index_id (first_seen (omap user_id_of l))).
  { rewrite HL, Hindexed, <- Hids.
    rewrite <- (filter_fmap_ug_id index_id (H1 := λ g, index_id_dec (ug_id_user g))).
    by rewrite <- !list_fmap_compose. }
  exists (ug_id_user <$> (snd <$> L)). split_and!.
  - unfold groups_of, JsObject.values. fold o. fold L.
    rewrite fmap_app, Hnamed, <- Hids. f_equal.
    apply (filter_fmap_ug_id (λ uid, ¬ index_id uid)).
  - done.
  - rewrite <- list_fmap_compose.
    apply (StronglySorted_fmap_strict JsObject.index_le).
    + apply StronglySorted_merge_sort; apply _.
    + intros x y Hx Hy Hxy. unfold JsObject.index_le in Hxy.
      destruct (Helem x Hx) as [Hx1 [Hx0 _]]. destruct (Helem y Hy) as [Hy1 [Hy0 _]].
      simpl. lia.
    + rewrite list_fmap_compose, Hperm. apply NoDup_filter.
      rewrite <- Hids, <- (NoDup_fmap Js.String_of_number),
        <- list_fmap_compose, <- Hkeys.
      done.
Qed.

(** * Further properties of the event loop *)

Lemma quiet_sends_first (t : Async Inner) : quiet t → sends_first t.
Proof. by destruct t. Qed.

Lemma quiet_issued i (t : Async Inner) :
  quiet t → Forall is_update_call (issued i t).
Proof.
  destruct t as [a|r|p k|ids k]; simpl; intros Hq; [constructor..|done|].
  apply Forall_singleton. by exists ids.
Qed.

Lemma quiet_future env i (t : Async Inner) :
  quiet t → Forall is_update_call (future env i t).
Proof.
  induction t as [a|r|p k IH|ids k IH]; simpl; intros Hq; [constructor..|done|].
  apply Forall_app. split; [apply quiet_issued|apply IH]; apply Hq.
Qed.

Lemma sends_first_future env i (t : Async Inner) :
  sends_first t → Forall is_update_call (future env i t).
Proof.
  destruct t as [a|r|p k|ids k]; intros Hs;
    [constructor..| |by apply quiet_future].
  simpl. apply Forall_app. split; [apply quiet_issued|apply quiet_future]; apply Hs.
Qed.

Lemma sends_first_resume env i (t : Async Inner) m :
  sends_first t → quiet (resume env i t m).1.
Proof. destruct t as [a|r|p k|ids k]; simpl; intros Hs; [done..|apply Hs|apply Hs]. Qed.

(** After the start, a turn of the loop adds update calls only. *)
Lemma step_log env s i :
  Forall sends_first (promises s) →
  ∃ ups, log (step env s i) = log s ++ ups ∧ Forall is_update_call ups ∧
         Forall sends_first (promises (step env s i)).
Proof.
  intros Hall. unfold step.
  destruct (promises s !! i) as [t|] eqn:Hi.
  - assert (Ht : sends_first t).
    { rewrite Forall_forall in Hall. apply Hall. by eapply list_elem_of_lookup_2. }
    pose proof (sends_first_resume env i t (db s) Ht) as Hq.
    destruct (resume env i t (db s)) as [t' m']. simpl in *.
    exists (issued i t'). split_and!; [done|by apply quiet_issued|].
    apply Forall_insert; [done|]. by apply quiet_sends_first.
  - exists []. by rewrite app_nil_r.
Qed.

Lemma steps_log env sched s :
  Forall sends_first (promises s) →
  ∃ ups, log (foldl (step env) s sched) = log s ++ ups ∧
         Forall is_update_call ups ∧
         Forall sends_first (promises (foldl (step env) s sched)).
Proof.
  revert s. induction sched as [|i sched IH]; intros s Hall; simpl.
  - exists []. by rewrite app_nil_r.
  - destruct (step_log env s i Hall) as (ups1 & Hlog1 & Hups1 & Hall1).
    destruct (IH _ Hall1) as (ups2 & -> & Hups2 & Hall2).
    exists (ups1 ++ ups2). rewrite Hlog1, (assoc (++)).
    split_and!; [done| |done]. by apply Forall_app.
Qed.

Lemma allSettled_log env sched s :
  Forall sends_first (promises s) →
  ∃ ups, (Promise_allSettled env sched s).2 = log s ++ ups ∧
         Forall is_update_call ups.
Proof.
  intros Hall. unfold Promise_allSettled. rewrite drain_spec. simpl.
  destruct (steps_log env sched s Hall) as (ups & -> & Hups & Hall').
  eexists. rewrite <- (assoc (++)). split; [done|].
  apply Forall_app. split; [done|].
  apply Forall_forall. intros e (j & t & Hj & He)%elem_of_mjoin_imap.
  assert (Ht : sends_first t).
  { rewrite Forall_forall in Hall'. apply Hall'. by eapply list_elem_of_lookup_2. }
  pose proof (sends_first_future env (0 + j) t Ht) as Hfut.
  rewrite Forall_forall in Hfut. by apply Hfut.
Qed.

(** * Further properties of the handler *)

Section handler_more.
Context `{JsRuntime}.
Implicit Types (env : Env) (g : UserGroup) (l : list TicketData).

Lemma POST_report CRON_SECRET request fetched env sched db0 l :
  reaches_dispatch CRON_SECRET request fetched l →
  ∃ evs,
    POST CRON_SECRET request fetched env sched db0
    = {| response :=
           JsonResponse
             (BodyResults msg_completed
                {| success := omap success_of (imap (fate env) (groups_of l));
                   failed := omap failed_of (imap (fate env) (groups_of l)) |})
             200;
         final_db :=
           mark_sent
             (mjoin (imap (λ i g, writes env i (email_callback g)) (groups_of l)))
             db0;
         calls := evs |} ∧
    evs ≡ₚ mjoin (imap (λ i g, trace env i (email_callback g)) (groups_of l)).
Proof.
  intros Hreach. rewrite (POST_dispatch _ _ _ _ _ _ _ Hreach).
  apply dispatch_spec.
Qed.

(** Whatever branch is taken, the table is the initial one with some
    rows marked. *)
Lemma POST_final_db CRON_SECRET request fetched env sched db0 :
  ∃ ids, final_db (POST CRON_SECRET request fetched env sched db0)
         = mark_sent ids db0.
Proof.
  unfold POST. destruct (negb (authorized CRON_SECRET request)); [by exists []|].
  destruct (fetchError fetched); [by exists []|].
  destruct (data fetched) as [[|t l]|]; [by exists []| |by exists []].
  destruct (dispatch_spec env sched (t :: l) db0) as (evs & -> & _). eauto.
Qed.

Lemma string_app_inv_head (a b c : string) : a +:+ b = a +:+ c → b = c.
Proof.
  induction a as [|ch a IH]; [done|].
  intros Heq. apply IH.
  change (String ch (a +:+ b) = String ch (a +:+ c)) in Heq. congruence.
Qed.


(** X2.  A header that passes the check under two configurations of the
    secret shows that the two read alike: the secrets are equal, or one is
    unset and the other is the text 'undefined'. *)
Theorem X2_one_secret_per_header (s1 s2 : option string) request :
  authorized s1 request = true → authorized s2 request = true →
  default "undefined" s1 = default "undefined" s2.
Proof.
  unfold authorized, bearer.
  intros H1%bool_decide_eq_true H2%bool_decide_eq_true.
  rewrite H1 in H2. injection H2 as H2. by apply string_app_inv_head in H2.
Qed.

(** X3.  The order in which the collaborators' answers arrive changes
    neither the response nor the final table; the calls made are the same
    up to their order. *)
Theorem X3_any_schedule CRON_SECRET request fetched env sched1 sched2 db0 :
  response (POST CRON_SECRET request fetched env sched1 db0)
  = response (POST CRON_SECRET request fetched env sched2 db0) ∧
  final_db (POST CRON_SECRET request fetched env sched1 db0)
  = final_db (POST CRON_SECRET request fetched env sched2 db0) ∧
  calls (POST CRON_SECRET request fetched env sched1 db0)
  ≡ₚ calls (POST CRON_SECRET request fetched env sched2 db0).
Proof.
  unfold POST. destruct (negb (authorized CRON_SECRET request)); [done|].
  destruct (fetchError fetched); [done|].
  destruct (data fetched) as [[|t l]|]; [done| |done].
  apply dispatch_any_schedule.
Qed.

(** X4.  The handler never adds a row to the table, never removes one and
    never turns a flag back to false: the final table has the rows of the
    initial one, and a row that was true stays true.  This holds on every
    branch and for every answer of the collaborators. *)
Theorem X4_flags_only_rise CRON_SECRET request fetched env sched db0 :
  dom (final_db (POST CRON_SECRET request fetched env sched db0)) = dom db0 ∧
  (∀ k, db0 !! k = Some true →
     final_db (POST CRON_SECRET request fetched env sched db0) !! k = Some true) ∧
  (∀ k, final_db (POST CRON_SECRET request fetched env sched db0) !! k = Some false →
     db0 !! k = Some false).
Proof.
  destruct (POST_final_db CRON_SECRET request fetched env sched db0) as [ids ->].
  split_and!.
  - apply set_eq. intros k. rewrite !elem_of_dom, lookup_mark_sent.
    case_bool_decide; [|done]. by rewrite fmap_is_Some.
  - intros k Hk. rewrite lookup_mark_sent, Hk. by case_bool_decide.
  - intros k. rewrite lookup_mark_sent. case_bool_decide; [|done].
    by destruct (db0 !! k).
Qed.

(** X5.  After a run that reaches the dispatch, a row is true exactly
    when it was true before, or it is a row of the table named by the
    update of a group whose send and update were both accepted. *)
Theorem X5_final_flags CRON_SECRET request fetched env sched db0 l k :
  reaches_dispatch CRON_SECRET request fetched l →
  final_db (POST CRON_SECRET request fetched env sched db0) !! k = Some true ↔
  db0 !! k = Some true ∨
  (is_Some (db0 !! k) ∧
   ∃ i g, groups_of l !! i = Some g ∧ succeeded env i g ∧ k ∈ ticketIdsToUpdate g).
Proof.
  intros Hreach.
  destruct (POST_spec _ _ _ env sched db0 _ Hreach) as (r & _ & _ & _ & Hchg & Hset).
  split.
  - intros Hk. destruct (db0 !! k) as [[|]|] eqn:Hk0; [by left|..].
    + right. split; [done|]. apply Hchg. congruence.
    + destruct (Hchg k) as (i & g & Hi & Hok & Hin); [congruence|].
      rewrite (Hset i g k Hi Hok Hin), Hk0 in Hk. done.
  - intros [Hk0|[[b Hk0] (i & g & Hi & Hok & Hin)]].
    + destruct (POST_final_db CRON_SECRET request fetched env sched db0)
        as [ids ->].
      rewrite lookup_mark_sent, Hk0. by case_bool_decide.
    + by rewrite (Hset i g k Hi Hok Hin), Hk0.
Qed.

Lemma length_omap_partition (rs : list PromiseSettledResult) :
  (length (omap success_of rs) + length (omap failed_of rs) = length rs)%nat.
Proof.
  induction rs as [|[[reason|value]|reason] rs IH]; [done|..];
    cbn [omap list_omap success_of failed_of length]; lia.
Qed.

Lemma success_of_fate env i g e :
  success_of (fate env i g) = Some e ↔
  ∃ to sentEmail,
    usable_email g = Some to ∧
    resend_answer env i (render_payload g to) = SendData sentEmail ∧
    supabase_answer env i (ticketIdsToUpdate g) = None ∧
    e = {| success_id_user := ug_id_user g; email_id := sent_id sentEmail |}.
Proof.
  split.
  - destruct (fate_cases env i g)
      as [He|[(to & se & He & Hs)|[(to & s & ue & He & Hs & Hu)
         |(to & s & He & Hs & Hu)]]].
    + destruct (fate_no_email env i g He) as (-> & _). done.
    + destruct (fate_send_error env i g _ _ He Hs) as (-> & _). done.
    + destruct (fate_update_error env i g _ _ _ He Hs Hu) as (-> & _). done.
    + destruct (fate_succeeded env i g _ _ He Hs Hu) as (-> & _).
      intros [= <-]. eauto 10.
  - intros (to & s & He & Hs & Hu & ->).
    by destruct (fate_succeeded env i g _ _ He Hs Hu) as (-> & _).
Qed.

Lemma failed_of_fate env i g e :
  failed_of (fate env i g) = Some e →
  failed_id_user e = ug_id_user g ∧ ¬ succeeded env i g.
Proof.
  intros Hf. split; [by eapply failed_of_fate_id|].
  intros (to & s & He & Hs & Hu).
  destruct (fate_succeeded env i g _ _ He Hs Hu) as (Hfate & _).
  by rewrite Hfate in Hf.
Qed.

Lemma entries_sublist {E} (ident : E → Z)
    (F : nat → UserGroup → option E) (gs : list UserGroup) :
  (∀ j g' e, F j g' = Some e → ident e = ug_id_user g') →
  ident <$> omap id (imap F gs) `sublist_of` ug_id_user <$> gs.
Proof.
  revert F. induction gs as [|x gs IH]; intros F HF; [constructor|].
  rewrite imap_cons, fmap_cons. cbn [omap list_omap].
  destruct (F 0%nat x) as [e|] eqn:He; simpl.
  - rewrite (HF _ _ _ He). apply sublist_skip, (IH (F ∘ S)).
    intros j g' e'. apply HF.
  - apply sublist_cons, (IH (F ∘ S)). intros j g' e'. apply HF.
Qed.

(** X6.  The report accounts for every group once and for nothing else:
    its two lists together have as many entries as there are groups; the
    success entries are exactly those of the groups whose send and update
    were both accepted, with the identifier the provider gave; every failed
    entry is that of a group that was not. *)
Theorem X6_report_accounts_for_groups CRON_SECRET request fetched env sched db0 l :
  reaches_dispatch CRON_SECRET request fetched l →
  ∃ r,
    report_of (response (POST CRON_SECRET request fetched env sched db0)) = Some r ∧
    (length (success r) + length (failed r) = length (groups_of l))%nat ∧
    (∀ e, e ∈ success r ↔
       ∃ i g to sentEmail,
         groups_of l !! i = Some g ∧ usable_email g = Some to ∧
         resend_answer env i (render_payload g to) = SendData sentEmail ∧
         supabase_answer env i (ticketIdsToUpdate g) = None ∧
         e = {| success_id_user := ug_id_user g; email_id := sent_id sentEmail |}) ∧
    (∀ e, e ∈ failed r →
       ∃ i g, groups_of l !! i = Some g ∧ ¬ succeeded env i g ∧
              failed_id_user e = ug_id_user g).
Proof.
  intros Hreach.
  destruct (POST_report _ _ _ env sched db0 _ Hreach) as (evs & -> & _). simpl.
  eexists. split; [done|]. simpl. split_and!.
  - by rewrite length_omap_partition, length_imap.
  - intros e. rewrite list_elem_of_omap. split.
    + intros (x & (i & g & -> & Hi)%elem_of_lookup_imap & Hx).
      apply success_of_fate in Hx as (to & s & ? & ? & ? & ?). eauto 10.
    + intros (i & g & to & s & Hi & He & Hs & Hu & ->).
      exists (fate env i g). split; [by apply elem_of_lookup_imap_2|].
      apply success_of_fate. eauto 10.
  - intros e (x & (i & g & -> & Hi)%elem_of_lookup_imap & Hx)%list_elem_of_omap.
    apply failed_of_fate in Hx as [? ?]. eauto.
Qed.

(** X7.  The entries of each list of the report come in the order in
    which [Object.values] lists the groups: the user identifiers of the
    success entries, and those of the failed entries, are sub-sequences of
    the groups' identifiers. *)
Theorem X7_report_in_group_order CRON_SECRET request fetched env sched db0 l :
  reaches_dispatch CRON_SECRET request fetched l →
  ∃ r,
    report_of (response (POST CRON_SECRET request fetched env sched db0)) = Some r ∧
    success_id_user <$> success r `sublist_of` ug_id_user <$> groups_of l ∧
    failed_id_user <$> failed r `sublist_of` ug_id_user <$> groups_of l.
Proof.
  intros Hreach.
  destruct (POST_report _ _ _ env sched db0 _ Hreach) as (evs & -> & _). simpl.
  eexists. split; [done|]. simpl.
  rewrite (omap_id_imap success_of), (omap_id_imap failed_of). split.
  - apply (entries_sublist success_id_user (λ j g', success_of (fate env j g'))).
    intros j g' e. apply success_of_fate_id.
  - apply (entries_sublist failed_id_user (λ j g', failed_of (fate env j g'))).
    intros j g' e. apply failed_of_fate_id.
Qed.

(** X8.  An update is only ever attempted after the provider has accepted
    the message of the same group: every update call of a run comes from a
    promise whose group has an address and whose send call, made in the
    same run, was answered with a message identifier; it names that
    group's tickets, which are never none. *)
Theorem X8_update_follows_accepted_send CRON_SECRET request fetched env sched db0
    l e ids :
  reaches_dispatch CRON_SECRET request fetched l →
  e ∈ calls (POST CRON_SECRET request fetched env sched db0) →
  ev_call e = CallUpdate ids →
  ∃ g to sentEmail,
    groups_of l !! ev_promise e = Some g ∧
    ids = ticketIdsToUpdate g ∧ ids ≠ [] ∧
    usable_email g = Some to ∧
    resend_answer env (ev_promise e) (render_payload g to) = SendData sentEmail ∧
    {| ev_promise := ev_promise e; ev_call := CallSend (render_payload g to) |}
      ∈ calls (POST CRON_SECRET request fetched env sched db0).
Proof.
  intros Hreach He Hcall.
  destruct (POST_spec _ _ _ env sched db0 _ Hreach) as (r & _ & _ & Hcalls & _).
  apply Hcalls in He as (j & g & Hj & Hin).
  apply trace_promise in Hin as Hp. rewrite Hp.
  destruct (update_call_of_group env j g e ids Hin Hcall) as (-> & to & s & Hmail & Hs).
  exists g, to, s. split_and!; [done..| |done|done|].
  - destruct (groups_of_spec l g) as (_ & t & user & Hhd & _);
      [by apply list_elem_of_lookup_2 in Hj|].
    unfold ticketIdsToUpdate. destruct (ug_tickets g); [done|]. done.
  - apply Hcalls. exists j, g. split; [done|].
    destruct (send_call_once env j g to Hmail) as (rest & -> & _). left.
Qed.

(** X9.  A fetch that returns tickets none of which resolves to a user is
    not the 'nothing pending' case: the answer is the completed report with
    both lists empty, no call is made and the table is left as it is. *)
Theorem X9_only_unresolved_tickets CRON_SECRET request fetched env sched db0 l :
  reaches_dispatch CRON_SECRET request fetched l →
  Forall (λ t, resolve_user t = None) l →
  POST CRON_SECRET request fetched env sched db0
  = {| response :=
         JsonResponse (BodyResults msg_completed {| success := []; failed := [] |}) 200;
       final_db := db0; calls := [] |}.
Proof.
  intros Hreach Hall.
  destruct (POST_report _ _ _ env sched db0 _ Hreach) as (evs & -> & Hevs).
  assert (Hnone : groups_of l = []).
  { unfold groups_of. by rewrite (group_tickets_unresolved l Hall). }
  rewrite Hnone in Hevs |- *. simpl in *.
  by apply Permutation_nil_r in Hevs as ->.
Qed.

(** X10.  The provider is never called with an empty recipient: every send
    call of a run goes to the address of the group of its promise, which
    is not empty, comes from the fixed sender, carries that group's
    rendered payload and counts at least one ticket. *)
Theorem X10_send_calls_have_a_recipient CRON_SECRET request fetched env sched db0
    l e p :
  reaches_dispatch CRON_SECRET request fetched l →
  e ∈ calls (POST CRON_SECRET request fetched env sched db0) →
  ev_call e = CallSend p →
  Js.truthy (mail_to p) = true ∧
  mail_from p = "JuegacnNosotros <noreply@juegacnnosotros.com>" ∧
  (1 ≤ ticketCount (mail_react p))%nat ∧
  ∃ g, groups_of l !! ev_promise e = Some g ∧
       ug_email g = Some (mail_to p) ∧
       p = render_payload g (mail_to p).
Proof.
  intros Hreach He Hcall.
  destruct (POST_spec _ _ _ env sched db0 _ Hreach) as (r & _ & _ & Hcalls & _).
  apply Hcalls in He as (j & g & Hj & Hin).
  apply trace_promise in Hin as Hp. rewrite Hp.
  destruct (usable_email g) as [to|] eqn:Hmail.
  - destruct (send_call_once env j g to Hmail) as (rest & Htr & Hrest).
    rewrite Htr in Hin. apply elem_of_cons in Hin as [->|Hin];
      [|by destruct (Hrest e p Hin)].
    simpl in Hcall. injection Hcall as <-. simpl.
    unfold usable_email in Hmail.
    destruct (ug_email g) as [a|] eqn:Ha; [|done].
    destruct (Js.truthy a) eqn:Htruthy; [|done]. injection Hmail as ->.
    split_and!; [done..| |by exists g].
    unfold padded_tickets. rewrite length_fmap.
    destruct (groups_of_spec l g) as (_ & t & user & Hhd & _);
      [by apply list_elem_of_lookup_2 in Hj|].
    destruct (ug_tickets g); [done|]. simpl. lia.
  - destruct (fate_no_email env j g Hmail) as (_ & _ & Htr).
    rewrite Htr in Hin. by apply elem_of_nil in Hin.
Qed.

(** X11.  A group whose message was sent and whose update the store
    refused is left as it was fetched: both calls were made, and its
    tickets still satisfy the query (each once, flag false), so the next
    run fetches them, and sends for them, again. *)
Theorem X11_update_refused_stays_eligible CRON_SECRET request fetched env sched db0
    l i g to sentEmail updateError :
  reaches_dispatch CRON_SECRET request fetched l →
  fetched_from db0 l →
  groups_of l !! i = Some g →
  usable_email g = Some to →
  resend_answer env i (render_payload g to) = SendData sentEmail →
  supabase_answer env i (ticketIdsToUpdate g) = Some updateError →
  {| ev_promise := i; ev_call := CallSend (render_payload g to) |}
    ∈ calls (POST CRON_SECRET request fetched env sched db0) ∧
  {| ev_promise := i; ev_call := CallUpdate (ticketIdsToUpdate g) |}
    ∈ calls (POST CRON_SECRET request fetched env sched db0) ∧
  fetched_from (final_db (POST CRON_SECRET request fetched env sched db0))
    (ug_tickets g).
Proof.
  intros Hreach [Hnd Hrows] Hi He Hs Hu.
  assert (Hg : g ∈ groups_of l) by by apply list_elem_of_lookup_2 in Hi.
  destruct (POST_spec _ _ _ env sched db0 _ Hreach)
    as (r & _ & _ & Hcalls & Hchg & _).
  destruct (fate_update_error env i g _ _ _ He Hs Hu) as (_ & _ & Htr).
  destruct (groups_of_spec l g Hg) as (Htk & _).
  rewrite Forall_forall in Hrows.
  split_and!.
  - apply Hcalls. exists i, g. split; [done|]. rewrite Htr. left.
  - apply Hcalls. exists i, g. split; [done|]. rewrite Htr. right. left.
  - split.
    + apply (sublist_NoDup _ (id_tickets <$> l)); [done|].
      apply fmap_sublist. rewrite Htk. apply sublist_filter.
    + apply Forall_forall. intros t Ht.
      destruct (group_tickets_resolved l g t Hg Ht) as [Htl Hu'].
      destruct (Hrows t Htl) as [Hflag Hrow]. split; [done|].
      rewrite (row_untouched env l db0 _ t Hchg Hnd Htl); [done|].
      intros j g' Hj Hu'' (to' & s' & _ & _ & Hnone).
      rewrite Hu' in Hu''. injection Hu'' as Hu''.
      assert (i = j) as <- by by eapply groups_of_lookup_inj.
      rewrite Hi in Hj. injection Hj as <-. congruence.
Qed.

(** X12.  A ticket of a group whose send and update were both accepted is
    not considered again: no list that satisfies the query on the final
    table holds a row with its identifier. *)
Theorem X12_marked_rows_leave_the_query CRON_SECRET request fetched env sched db0
    l i g l' t :
  reaches_dispatch CRON_SECRET request fetched l →
  fetched_from db0 l →
  groups_of l !! i = Some g →
  succeeded env i g →
  t ∈ ug_tickets g →
  fetched_from (final_db (POST CRON_SECRET request fetched env sched db0)) l' →
  id_tickets t ∉ id_tickets <$> l'.
Proof.
  intros Hreach [Hnd Hrows] Hi Hok Ht [_ Hrows'] (t' & Hid & Ht')%list_elem_of_fmap.
  assert (Hg : g ∈ groups_of l) by by apply list_elem_of_lookup_2 in Hi.
  destruct (POST_spec _ _ _ env sched db0 _ Hreach)
    as (r & _ & _ & _ & _ & Hset).
  destruct (group_tickets_resolved l g t Hg Ht) as [Htl _].
  rewrite Forall_forall in Hrows, Hrows'.
  destruct (Hrows t Htl) as [_ Hrow]. destruct (Hrows' t' Ht') as [_ Hrow'].
  rewrite <- Hid, (Hset i g (id_tickets t) Hi Hok), Hrow in Hrow'; [done|].
  unfold ticketIdsToUpdate. by apply list_elem_of_fmap_2.
Qed.

Lemma email_callback_sends_first g : sends_first (email_callback g).
Proof.
  unfold email_callback. destruct (usable_email g) as [to|]; [|done].
  simpl. intros [sentEmail|sendError]; [|done].
  simpl. by intros [updateError|].
Qed.

Lemma issued_email_callback i g :
  issued i (email_callback g)
  = match usable_email g with
    | Some to => [ {| ev_promise := i; ev_call := CallSend (render_payload g to) |} ]
    | None => []
    end.
Proof. unfold email_callback. by destruct (usable_email g). Qed.

(** X15.  The send calls are all made while the groups are mapped, one for
    each group with an address and in the order of the groups, before any
    answer is looked at: the calls of a run are these sends followed by
    update calls only, whatever the order of arrival of the answers. *)
Theorem X15_sends_precede_updates CRON_SECRET request fetched env sched db0 l :
  reaches_dispatch CRON_SECRET request fetched l →
  ∃ updates,
    calls (POST CRON_SECRET request fetched env sched db0)
    = first_calls l ++ updates ∧
    first_calls l
    = mjoin (imap (λ i g,
        match usable_email g with
        | Some to => [ {| ev_promise := i; ev_call := CallSend (render_payload g to) |} ]
        | None => []
        end) (groups_of l)) ∧
    Forall is_send_call (first_calls l) ∧
    Forall is_update_call updates.
Proof.
  intros Hreach. rewrite (POST_dispatch _ _ _ _ _ _ _ Hreach).
  assert (Hfirst : first_calls l
            = mjoin (imap (λ i g,
                match usable_email g with
                | Some to =>
                    [ {| ev_promise := i; ev_call := CallSend (render_payload g to) |} ]
                | None => []
                end) (groups_of l))).
  { unfold first_calls, emailPromises. fold (groups_of l). rewrite imap_fmap.
    f_equal. apply imap_ext. intros i g _. apply issued_email_callback. }
  unfold dispatch.
  set (started := {| promises := emailPromises l; db := db0;
                     log := mjoin (imap issued (emailPromises l)) |}).
  destruct (allSettled_log env sched started) as (ups & Hlog & Hups).
  { apply Forall_forall. intros t (g & -> & _)%list_elem_of_fmap.
    apply email_callback_sends_first. }
  destruct (Promise_allSettled env sched started) as [[rs m] evs].
  simpl in Hlog. subst evs. simpl.
  exists ups. split_and!; [done..| |done].
  rewrite Hfirst. apply Forall_forall.
  intros e (i & g & _ & He)%elem_of_mjoin_imap.
  destruct (usable_email g) as [to|]; [|by apply elem_of_nil in He].
  apply list_elem_of_singleton in He as ->. by eexists.
Qed.

Lemma group_rows_marked_iff CRON_SECRET request fetched env sched db0 l i g t :
  reaches_dispatch CRON_SECRET request fetched l →
  fetched_from db0 l →
  groups_of l !! i = Some g → t ∈ ug_tickets g →
  (succeeded env i g →
   final_db (POST CRON_SECRET request fetched env sched db0) !! id_tickets t
   = Some true) ∧
  (¬ succeeded env i g →
   final_db (POST CRON_SECRET request fetched env sched db0) !! id_tickets t
   = Some false).
Proof.
  intros Hreach [Hnd Hrows] Hi Ht.
  assert (Hg : g ∈ groups_of l) by by apply list_elem_of_lookup_2 in Hi.
  destruct (POST_spec _ _ _ env sched db0 _ Hreach)
    as (r & _ & _ & _ & Hchg & Hset).
  destruct (group_tickets_resolved l g t Hg Ht) as [Htl Hu].
  rewrite Forall_forall in Hrows. destruct (Hrows t Htl) as [_ Hrow].
  split.
  - intros Hok. rewrite (Hset i g (id_tickets t) Hi Hok), Hrow; [done|].
    unfold ticketIdsToUpdate. by apply list_elem_of_fmap_2.
  - intros Hno. rewrite (row_untouched env l db0 _ t Hchg Hnd Htl); [done|].
    intros j g' Hj Hu' Hok. rewrite Hu in Hu'. injection Hu' as Hu'.
    assert (i = j) as <- by by eapply groups_of_lookup_inj.
    rewrite Hi in Hj. by injection Hj as <-.
Qed.

(** X16.  The rows of a group end as that group's own answers decide, and
    as nothing else does: in two runs over the same fetch whose
    collaborators answer the group alike, and anything to the other
    groups, in any order, each ticket of the group ends with the same
    flag.  A sibling's failure does not undo the marking of a group, and a
    sibling's success does not mark it. *)
Theorem X16_rows_of_a_group_are_isolated CRON_SECRET request fetched l db0
    env1 env2 sched1 sched2 i g t :
  reaches_dispatch CRON_SECRET request fetched l →
  fetched_from db0 l →
  groups_of l !! i = Some g →
  (∀ to, usable_email g = Some to →
     resend_answer env1 i (render_payload g to)
     = resend_answer env2 i (render_payload g to)) →
  supabase_answer env1 i (ticketIdsToUpdate g)
  = supabase_answer env2 i (ticketIdsToUpdate g) →
  t ∈ ug_tickets g →
  final_db (POST CRON_SECRET request fetched env1 sched1 db0) !! id_tickets t
  = final_db (POST CRON_SECRET request fetched env2 sched2 db0) !! id_tickets t.
Proof.
  intros Hreach Hfetch Hi Hsend Hupd Ht.
  assert (Hiff : succeeded env1 i g ↔ succeeded env2 i g).
  { unfold succeeded. split; intros (to & s & He & Hs & Hu); exists to, s;
      (split_and!; [done| |]); rewrite ?(Hsend to He), ?Hupd in *; congruence. }
  destruct (group_rows_marked_iff CRON_SECRET request fetched env1 sched1 db0
              l i g t Hreach Hfetch Hi Ht) as [Hyes1 Hno1].
  destruct (group_rows_marked_iff CRON_SECRET request fetched env2 sched2 db0
              l i g t Hreach Hfetch Hi Ht) as [Hyes2 Hno2].
  destruct (fate_cases env1 i g) as [He|[(to & se & He & Hs)|[(to & s & ue & He & Hs & Hu)
    |Hok]]].
  - rewrite Hno1, Hno2; [done|..]; intros (to & s & He' & _); congruence.
  - rewrite Hno1, Hno2; [done|..]; intros (to' & s & He' & Hs' & _).
    + rewrite He in He'. injection He' as <-. rewrite <- (Hsend to He) in Hs'.
      congruence.
    + congruence.
  - rewrite Hno1, Hno2; [done|..]; intros (to' & s' & He' & Hs' & Hu').
    + rewrite <- Hupd in Hu'. congruence.
    + congruence.
  - rewrite Hyes1, Hyes2; [done|by apply Hiff|done].
Qed.

End handler_more.

(** * The statements at the sample data *)

#[local] Existing Instance Ascii_runtime.runtime.

(** The example of the specification, end to end: one send call for the
    first user with the codes 0007 and 0042, one failed entry for the user
    without an address, rows 11 and 12 marked and row 13 not. *)
Example spec_end_to_end :
  let o := Sample.run_on Sample.spec_example Sample.all_good [1; 0]%nat in
  report_of (response o)
  = Some {| success := [ {| success_id_user := 1; email_id := "re_1" |} ];
            failed := [ {| failed_id_user := 2;
                           error := "El usuario no tiene un email registrado." |} ] |} ∧
  (props_tickets ∘ mail_react <$>
     omap (λ e, match ev_call e with CallSend p => Some p | _ => None end) (calls o))
  = [ "0007, 0042" ] ∧
  (λ k, final_db o !! k) <$> [11; 12; 13] = [Some true; Some true; Some false].
Proof. vm_compute. done. Qed.

Example padStart_7_42 :
  Js.join ", " (Js.padStart 4 "0" <$> ["7"; "42"]) = "0007, 0042".
Proof. reflexivity. Qed.

(** Numeric keys are listed in ascending order whatever the order in which
    the users are met. *)
Example values_in_key_order :
  ug_id_user <$> groups_of [Sample.t8; Sample.t3; Sample.t7] = [1; 2; 3].
Proof. vm_compute. reflexivity. Qed.

Lemma C1_witness :
  reaches_dispatch (Some "s3cret") Sample.request Sample.fetched Sample.ticketsData ∧
  ∃ r,
    report_of (response (Sample.run Sample.all_good [2; 0]%nat)) = Some r ∧
    (∀ g, g ∈ groups_of Sample.ticketsData →
       (length (success_for (ug_id_user g) r)
        + length (failed_for (ug_id_user g) r) = 1)%nat) ∧
    (∀ t user, t ∈ Sample.ticketsData → resolve_user t = Some user →
       (length (success_for (id_user user) r)
        + length (failed_for (id_user user) r) = 1)%nat).
Proof.
  split; [sample_reaches|].
  apply (C1_exactly_one_entry (Some "s3cret") Sample.request Sample.fetched
           Sample.all_good [2; 0]%nat Sample.db0 Sample.ticketsData).
  sample_reaches.
Defined.

Lemma C2_witness :
  groups_of Sample.ticketsData !! 0%nat = Some Sample.g1 ∧
  resend_answer (Sample.send_refused 2 Sample.quota) 2
    (render_payload Sample.g3 "eva@example.org") = SendError Sample.quota ∧
  ∃ r1 r2,
    report_of (response (Sample.run Sample.all_good [])) = Some r1 ∧
    report_of (response (Sample.run (Sample.send_refused 2 Sample.quota) [2; 0]%nat))
    = Some r2 ∧
    success_for 1 r1 = success_for 1 r2 ∧
    failed_for 1 r1 = failed_for 1 r2.
Proof.
  split; [by_computation|]. split; [by_computation|].
  apply (C2_sibling_independence (Some "s3cret") Sample.request Sample.fetched
           Sample.ticketsData Sample.all_good (Sample.send_refused 2 Sample.quota)
           [] [2; 0]%nat Sample.db0 Sample.db0 0 Sample.g1).
  - sample_reaches.
  - by_computation.
  - intros to _. reflexivity.
  - reflexivity.
Defined.

Lemma C3_witness :
  fetched_from Sample.db0 Sample.ticketsData ∧
  groups_of Sample.ticketsData !! 0%nat = Some Sample.g1 ∧
  usable_email Sample.g1 = Some "ana@example.org" ∧
  ∃ r,
    report_of (response (Sample.run Sample.all_good [2; 0; 1]%nat)) = Some r ∧
    success_for 1 r = [ {| success_id_user := 1; email_id := "re_1" |} ] ∧
    failed_for 1 r = [] ∧
    (∀ ids, {| ev_promise := 0; ev_call := CallUpdate ids |}
              ∈ calls (Sample.run Sample.all_good [2; 0; 1]%nat)
            ↔ ids = [11; 12]) ∧
    (∀ t, t ∈ [Sample.t7; Sample.t42] →
       final_db (Sample.run Sample.all_good [2; 0; 1]%nat) !! id_tickets t
       = Some true) ∧
    (∀ (m : gmap Z bool) k, k ∉ [11; 12] → mark_sent [11; 12] m !! k = m !! k) ∧
    (∀ k, k ∉ [11; 12] →
       final_db (Sample.run Sample.all_good [2; 0; 1]%nat) !! k ≠ Sample.db0 !! k →
       ∃ j g', j ≠ 0%nat ∧ groups_of Sample.ticketsData !! j = Some g' ∧
               succeeded Sample.all_good j g' ∧ k ∈ ticketIdsToUpdate g').
Proof.
  split; [sample_fetched|]. split; [by_computation|]. split; [by_computation|].
  apply (C3_sent_and_marked (Some "s3cret") Sample.request Sample.fetched
           Sample.all_good [2; 0; 1]%nat Sample.db0 Sample.ticketsData
           0 Sample.g1 "ana@example.org" {| sent_id := "re_1" |}).
  - sample_reaches.
  - sample_fetched.
  - by_computation.
  - by_computation.
  - reflexivity.
  - reflexivity.
Defined.

Lemma C4_witness :
  fetched_from Sample.db0 Sample.ticketsData ∧
  groups_of Sample.ticketsData !! 0%nat = Some Sample.g1 ∧
  resend_answer (Sample.send_refused 0 Sample.quota) 0
    (render_payload Sample.g1 "ana@example.org") = SendError Sample.quota ∧
  ∃ r,
    report_of (response (Sample.run (Sample.send_refused 0 Sample.quota) [0; 2]%nat))
    = Some r ∧
    failed_for 1 r
    = [ {| failed_id_user := 1; error := "Daily quota exceeded" |} ] ∧
    success_for 1 r = [] ∧
    (∀ e ids, e ∈ calls (Sample.run (Sample.send_refused 0 Sample.quota) [0; 2]%nat) →
       ev_promise e = 0%nat → ev_call e ≠ CallUpdate ids) ∧
    (∀ e ids t,
       e ∈ calls (Sample.run (Sample.send_refused 0 Sample.quota) [0; 2]%nat) →
       ev_call e = CallUpdate ids → t ∈ [Sample.t7; Sample.t42] →
       id_tickets t ∉ ids) ∧
    (∀ t, t ∈ [Sample.t7; Sample.t42] →
       final_db (Sample.run (Sample.send_refused 0 Sample.quota) [0; 2]%nat)
         !! id_tickets t
       = Some false).
Proof.
  split; [sample_fetched|]. split; [by_computation|]. split; [by_computation|].
  apply (C4_send_refused (Some "s3cret") Sample.request Sample.fetched
           (Sample.send_refused 0 Sample.quota) [0; 2]%nat Sample.db0
           Sample.ticketsData 0 Sample.g1 "ana@example.org" Sample.quota).
  - sample_reaches.
  - sample_fetched.
  - by_computation.
  - by_computation.
  - reflexivity.
Defined.

(** C4, as stated, fails when the provider's error has an empty message:
    the entry recorded for the user then carries the JSON text of the error
    object, which is not the message. *)
Lemma C4_counterexample :
  groups_of Sample.ticketsData !! 0%nat = Some Sample.g1 ∧
  resend_answer (Sample.send_refused 0 Sample.silent) 0
    (render_payload Sample.g1 "ana@example.org") = SendError Sample.silent ∧
  ∃ r,
    report_of (response (Sample.run (Sample.send_refused 0 Sample.silent) []))
    = Some r ∧
    failed_for 1 r
    = [ {| failed_id_user := 1;
           error := Ascii_runtime.stringify Sample.silent |} ] ∧
    ¬ (∃ e, e ∈ failed r ∧ failed_id_user e = 1 ∧ error e = message Sample.silent).
Proof.
  split; [by_computation|]. split; [by_computation|].
  eexists. split; [by_computation|]. split; [by_computation|].
  intros (e & Hin & Hid & Herr).
  apply elem_of_cons in Hin as [->|Hin]; [discriminate Herr|].
  apply list_elem_of_singleton in Hin as ->. discriminate Hid.
Qed.

Lemma C5_witness :
  groups_of Sample.ticketsData !! 0%nat = Some Sample.g1 ∧
  supabase_answer (Sample.update_refused 0) 0 (ticketIdsToUpdate Sample.g1)
  = Some {| pg_message := "timeout" |} ∧
  ∃ r,
    report_of (response (Sample.run (Sample.update_refused 0) [2; 2; 0]%nat)) = Some r ∧
    failed_for 1 r
    = [ {| failed_id_user := 1;
           error := "Email sent, but DB update failed: timeout" |} ] ∧
    success_for 1 r = [] ∧
    {| ev_promise := 0;
       ev_call := CallSend (render_payload Sample.g1 "ana@example.org") |}
      ∈ calls (Sample.run (Sample.update_refused 0) [2; 2; 0]%nat).
Proof.
  split; [by_computation|]. split; [by_computation|].
  apply (C5_update_refused (Some "s3cret") Sample.request Sample.fetched
           (Sample.update_refused 0) [2; 2; 0]%nat Sample.db0 Sample.ticketsData
           0 Sample.g1 "ana@example.org" {| sent_id := "re_1" |}
           {| pg_message := "timeout" |}).
  - sample_reaches.
  - by_computation.
  - by_computation.
  - reflexivity.
  - reflexivity.
Defined.

Lemma C6_witness :
  fetched_from Sample.db0 Sample.ticketsData ∧
  groups_of Sample.ticketsData !! 1%nat = Some Sample.g2 ∧
  ug_email Sample.g2 = None ∧
  ∃ r,
    report_of (response (Sample.run Sample.all_good [1; 0]%nat)) = Some r ∧
    failed_for 2 r
    = [ {| failed_id_user := 2;
           error := "El usuario no tiene un email registrado." |} ] ∧
    success_for 2 r = [] ∧
    (∀ e, e ∈ calls (Sample.run Sample.all_good [1; 0]%nat) → ev_promise e ≠ 1%nat) ∧
    (∀ e ids t, e ∈ calls (Sample.run Sample.all_good [1; 0]%nat) →
       ev_call e = CallUpdate ids → t ∈ [Sample.t3] → id_tickets t ∉ ids) ∧
    (∀ t, t ∈ [Sample.t3] →
       final_db (Sample.run Sample.all_good [1; 0]%nat) !! id_tickets t
       = Some false).
Proof.
  split; [sample_fetched|]. split; [by_computation|]. split; [by_computation|].
  apply (C6_missing_email (Some "s3cret") Sample.request Sample.fetched
           Sample.all_good [1; 0]%nat Sample.db0 Sample.ticketsData 1 Sample.g2).
  - sample_reaches.
  - sample_fetched.
  - by_computation.
  - by left.
Defined.

Lemma C7_witness :
  authorized (Some "s3cret") Sample.request = true ∧
  (∀ e, fetchError Sample.failed_fetch = Some e →
     POST (Some "s3cret") Sample.request Sample.failed_fetch Sample.all_good []
       Sample.db0
     = {| response := JsonResponse (BodyError msg_fetch_error (pg_message e)) 500;
          final_db := Sample.db0; calls := [] |}) ∧
  (fetchError Sample.failed_fetch = None →
   data Sample.failed_fetch = None ∨ data Sample.failed_fetch = Some [] →
     POST (Some "s3cret") Sample.request Sample.failed_fetch Sample.all_good []
       Sample.db0
     = {| response := JsonResponse (BodyMessage msg_nothing_pending) 200;
          final_db := Sample.db0; calls := [] |}).
Proof.
  split; [by_computation|].
  apply (C7_fetch_error_and_empty (Some "s3cret") Sample.request
           Sample.failed_fetch Sample.all_good [] Sample.db0).
  by_computation.
Defined.

(** The two branches of C7 at concrete fetches. *)
Example fetch_error_response :
  POST (Some "s3cret") Sample.request Sample.failed_fetch Sample.all_good [] Sample.db0
  = {| response :=
         JsonResponse
           (BodyError "Error al obtener usuarios para enviar correos"
              "connection refused") 500;
       final_db := Sample.db0; calls := [] |}.
Proof. reflexivity. Qed.

Example nothing_pending_response :
  POST (Some "s3cret") Sample.request (Sample.fetch []) Sample.all_good [] Sample.db0
  = {| response := JsonResponse (BodyMessage "No hay correos pendientes por enviar.") 200;
       final_db := Sample.db0; calls := [] |}.
Proof. reflexivity. Qed.

Lemma C8_witness :
  NoDup (ug_id_user <$> groups_of Sample.ticketsData) ∧
  (∀ g, g ∈ groups_of Sample.ticketsData →
     ug_tickets g = tickets_of (ug_id_user g) Sample.ticketsData ∧
     ug_tickets g ≠ []).
Proof.
  destruct (C8_grouping Sample.ticketsData) as (Hnd & Hall & _). by split.
Defined.

Lemma C9_witness :
  groups_of Sample.ticketsData !! 0%nat = Some Sample.g1 ∧
  usable_email Sample.g1 = Some "ana@example.org" ∧
  {| ev_promise := 0;
     ev_call := CallSend (render_payload Sample.g1 "ana@example.org") |}
    ∈ calls (Sample.run Sample.all_good [0; 2]%nat) ∧
  props_tickets (mail_react (render_payload Sample.g1 "ana@example.org"))
  = "0007, 0042" ∧
  mail_subject (render_payload Sample.g1 "ana@example.org")
  = "Tu Compra ha sido Aprobada Ana " ∧
  props_name (mail_react (render_payload Sample.g1 "ana@example.org")) = "Ana".
Proof.
  split; [by_computation|]. split; [by_computation|].
  destruct (C9_rendering (Some "s3cret") Sample.request Sample.fetched
              Sample.all_good [0; 2]%nat Sample.db0 Sample.ticketsData
              0 Sample.g1 "ana@example.org")
    as (Hcall & _ & _ & Htk & Hsub & Hname).
  - sample_reaches.
  - by_computation.
  - by_computation.
  - split; [exact Hcall|]. split; [exact Htk|]. split; [exact Hsub | exact Hname].
Defined.

(** C9, as stated, fails for a user whose name is empty: the display name
    handed to the template is 'Participante', which is not the user's name
    with its first letter capitalized. *)
Lemma C9_counterexample :
  groups_of Sample.ticketsData !! 2%nat = Some Sample.g3 ∧
  usable_email Sample.g3 = Some "eva@example.org" ∧
  ∃ p,
    calls (Sample.run Sample.all_good []) !! 1%nat
    = Some {| ev_promise := 2; ev_call := CallSend p |} ∧
    props_name (mail_react p) = "Participante" ∧
    props_name (mail_react p)
    ≠ toUpperCase (Js.charAt0 (ug_name Sample.g3)) +:+ Js.slice 1 (ug_name Sample.g3).
Proof.
  split; [by_computation|]. split; [by_computation|].
  eexists. split; [by_computation|]. split; by_computation.
Qed.

Lemma C10_witness :
  fetched_from Sample.db0 Sample.ticketsData ∧
  resolve_user Sample.orphan = None ∧
  group_tickets Sample.ticketsData
  = group_tickets [Sample.t7; Sample.t3; Sample.t42; Sample.t8] ∧
  Sample.run Sample.all_good [0; 2]%nat
  = dispatch Sample.all_good [0; 2]%nat
      [Sample.t7; Sample.t3; Sample.t42; Sample.t8] Sample.db0 ∧
  (∀ g, g ∈ groups_of Sample.ticketsData → Sample.orphan ∉ ug_tickets g) ∧
  (∀ e ids, e ∈ calls (Sample.run Sample.all_good [0; 2]%nat) →
     ev_call e = CallUpdate ids → id_tickets Sample.orphan ∉ ids) ∧
  final_db (Sample.run Sample.all_good [0; 2]%nat) !! id_tickets Sample.orphan
  = Some false.
Proof.
  split; [sample_fetched|]. split; [by_computation|].
  apply (C10_unresolved_skipped (Some "s3cret") Sample.request Sample.fetched
           Sample.all_good [0; 2]%nat Sample.db0
           [Sample.t7; Sample.t3; Sample.t42] Sample.orphan [Sample.t8]).
  - sample_reaches.
  - sample_fetched.
  - by_computation.
Defined.

(** Keys that are not array indices (a negative identifier, one beyond
    2^32 - 2) come after the others, in the order in which they were met. *)
Example values_named_keys_last :
  ug_id_user <$>
    groups_of [Sample.ticket 1 "1" (EmbOne {| id_user := 4294967295; name := "a";
                                              email := None; id_card := "c" |});
               Sample.ticket 2 "2" (EmbOne {| id_user := 7; name := "b";
                                              email := None; id_card := "c" |});
               Sample.ticket 3 "3" (EmbOne {| id_user := -1; name := "c";
                                              email := None; id_card := "c" |});
               Sample.ticket 4 "4" (EmbOne {| id_user := 3; name := "d";
                                              email := None; id_card := "c" |})]
  = [3; 7; 4294967295; -1].
Proof. vm_compute. reflexivity. Qed.

(** Two orders of arrival of the answers: the same report and table, the
    sends first in both logs. *)
Example two_schedules :
  response (Sample.run Sample.all_good [0; 0; 2; 2]%nat)
  = response (Sample.run Sample.all_good [2; 0; 2; 0]%nat) ∧
  final_db (Sample.run Sample.all_good [0; 0; 2; 2]%nat)
  = final_db (Sample.run Sample.all_good [2; 0; 2; 0]%nat) ∧
  ev_promise <$> calls (Sample.run Sample.all_good [0; 0; 2; 2]%nat)
  = [0; 2; 0; 2]%nat ∧
  ev_promise <$> calls (Sample.run Sample.all_good [2; 0; 2; 0]%nat)
  = [0; 2; 2; 0]%nat.
Proof.
  split_and!; [| |by_computation..].
  - apply (dispatch_any_schedule Sample.all_good).
  - apply (dispatch_any_schedule Sample.all_good).
Qed.

(** Only tickets without a user: an empty report, no call. *)
Example only_orphans :
  Sample.run_on [Sample.orphan] Sample.all_good []
  = {| response :=
         JsonResponse (BodyResults msg_completed {| success := []; failed := [] |}) 200;
       final_db := Sample.db0; calls := [] |}.
Proof. reflexivity. Qed.

(** * The further properties at the sample data *)


Lemma X2_witness :
  authorized None {| authorization := Some "Bearer undefined" |} = true ∧
  authorized (Some "undefined") {| authorization := Some "Bearer undefined" |} = true ∧
  default "undefined" None = default "undefined" (Some "undefined").
Proof.
  split; [by_computation|]. split; [by_computation|].
  apply (X2_one_secret_per_header None (Some "undefined")
           {| authorization := Some "Bearer undefined" |}); by_computation.
Defined.

Lemma X5_witness :
  final_db (Sample.run Sample.all_good [2; 0]%nat) !! 11 = Some true ↔
  Sample.db0 !! 11 = Some true ∨
  (is_Some (Sample.db0 !! 11) ∧
   ∃ i g, groups_of Sample.ticketsData !! i = Some g ∧
          succeeded Sample.all_good i g ∧ 11 ∈ ticketIdsToUpdate g).
Proof.
  apply (X5_final_flags (Some "s3cret") Sample.request Sample.fetched
           Sample.all_good [2; 0]%nat Sample.db0 Sample.ticketsData 11).
  sample_reaches.
Defined.

Lemma X6_witness :
  ∃ r,
    report_of (response (Sample.run (Sample.update_refused 0) [0; 2]%nat)) = Some r ∧
    (length (success r) + length (failed r) = length (groups_of Sample.ticketsData))%nat ∧
    (∀ e, e ∈ success r ↔
       ∃ i g to sentEmail,
         groups_of Sample.ticketsData !! i = Some g ∧ usable_email g = Some to ∧
         resend_answer (Sample.update_refused 0) i (render_payload g to)
         = SendData sentEmail ∧
         supabase_answer (Sample.update_refused 0) i (ticketIdsToUpdate g) = None ∧
         e = {| success_id_user := ug_id_user g; email_id := sent_id sentEmail |}) ∧
    (∀ e, e ∈ failed r →
       ∃ i g, groups_of Sample.ticketsData !! i = Some g ∧
              ¬ succeeded (Sample.update_refused 0) i g ∧
              failed_id_user e = ug_id_user g).
Proof.
  apply (X6_report_accounts_for_groups (Some "s3cret") Sample.request Sample.fetched
           (Sample.update_refused 0) [0; 2]%nat Sample.db0 Sample.ticketsData).
  sample_reaches.
Defined.

Lemma X7_witness :
  ∃ r,
    report_of (response (Sample.run Sample.all_good [2; 0]%nat)) = Some r ∧
    success_id_user <$> success r `sublist_of` ug_id_user <$> groups_of Sample.ticketsData ∧
    failed_id_user <$> failed r `sublist_of` ug_id_user <$> groups_of Sample.ticketsData.
Proof.
  apply (X7_report_in_group_order (Some "s3cret") Sample.request Sample.fetched
           Sample.all_good [2; 0]%nat Sample.db0 Sample.ticketsData).
  sample_reaches.
Defined.

Lemma X8_witness :
  calls (Sample.run Sample.all_good []) !! 2%nat
  = Some {| ev_promise := 0; ev_call := CallUpdate [11; 12] |} ∧
  ∃ g to sentEmail,
    groups_of Sample.ticketsData !! 0%nat = Some g ∧
    [11; 12] = ticketIdsToUpdate g ∧ [11; 12] ≠ [] ∧
    usable_email g = Some to ∧
    resend_answer Sample.all_good 0 (render_payload g to) = SendData sentEmail ∧
    {| ev_promise := 0; ev_call := CallSend (render_payload g to) |}
      ∈ calls (Sample.run Sample.all_good []).
Proof.
  split; [by_computation|].
  apply (X8_update_follows_accepted_send (Some "s3cret") Sample.request
           Sample.fetched Sample.all_good [] Sample.db0 Sample.ticketsData
           {| ev_promise := 0; ev_call := CallUpdate [11; 12] |} [11; 12]).
  - sample_reaches.
  - apply (list_elem_of_lookup_2 _ 2%nat). by_computation.
  - reflexivity.
Defined.

Lemma X9_witness :
  Forall (λ t, resolve_user t = None) [Sample.orphan] ∧
  Sample.run_on [Sample.orphan] Sample.all_good [0]%nat
  = {| response :=
         JsonResponse (BodyResults msg_completed {| success := []; failed := [] |}) 200;
       final_db := Sample.db0; calls := [] |}.
Proof.
  split; [by repeat constructor|].
  apply (X9_only_unresolved_tickets (Some "s3cret") Sample.request
           (Sample.fetch [Sample.orphan]) Sample.all_good [0]%nat Sample.db0
           [Sample.orphan]).
  - sample_reaches.
  - by repeat constructor.
Defined.

Lemma X10_witness :
  calls (Sample.run Sample.all_good []) !! 0%nat
  = Some {| ev_promise := 0;
            ev_call := CallSend (render_payload Sample.g1 "ana@example.org") |} ∧
  Js.truthy (mail_to (render_payload Sample.g1 "ana@example.org")) = true ∧
  mail_from (render_payload Sample.g1 "ana@example.org")
  = "JuegacnNosotros <noreply@juegacnnosotros.com>" ∧
  (1 ≤ ticketCount (mail_react (render_payload Sample.g1 "ana@example.org")))%nat ∧
  ∃ g, groups_of Sample.ticketsData !! 0%nat = Some g ∧
       ug_email g = Some (mail_to (render_payload Sample.g1 "ana@example.org")) ∧
       render_payload Sample.g1 "ana@example.org"
       = render_payload g (mail_to (render_payload Sample.g1 "ana@example.org")).
Proof.
  split; [by_computation|].
  apply (X10_send_calls_have_a_recipient (Some "s3cret") Sample.request
           Sample.fetched Sample.all_good [] Sample.db0 Sample.ticketsData
           {| ev_promise := 0;
              ev_call := CallSend (render_payload Sample.g1 "ana@example.org") |}
           (render_payload Sample.g1 "ana@example.org")).
  - sample_reaches.
  - apply (list_elem_of_lookup_2 _ 0%nat). by_computation.
  - reflexivity.
Defined.

Lemma X11_witness :
  fetched_from Sample.db0 Sample.ticketsData ∧
  groups_of Sample.ticketsData !! 0%nat = Some Sample.g1 ∧
  {| ev_promise := 0;
     ev_call := CallSend (render_payload Sample.g1 "ana@example.org") |}
    ∈ calls (Sample.run (Sample.update_refused 0) [0; 0]%nat) ∧
  {| ev_promise := 0; ev_call := CallUpdate (ticketIdsToUpdate Sample.g1) |}
    ∈ calls (Sample.run (Sample.update_refused 0) [0; 0]%nat) ∧
  fetched_from (final_db (Sample.run (Sample.update_refused 0) [0; 0]%nat))
    [Sample.t7; Sample.t42].
Proof.
  split; [sample_fetched|]. split; [by_computation|].
  apply (X11_update_refused_stays_eligible (Some "s3cret") Sample.request
           Sample.fetched (Sample.update_refused 0) [0; 0]%nat Sample.db0
           Sample.ticketsData 0 Sample.g1 "ana@example.org"
           {| sent_id := "re_1" |} {| pg_message := "timeout" |}).
  - sample_reaches.
  - sample_fetched.
  - by_computation.
  - by_computation.
  - reflexivity.
  - reflexivity.
Defined.

Lemma X12_witness :
  fetched_from (final_db (Sample.run Sample.all_good [0; 0]%nat))
    [Sample.t3; Sample.orphan] ∧
  id_tickets Sample.t7 ∉ id_tickets <$> [Sample.t3; Sample.orphan].
Proof.
  split; [sample_fetched|].
  apply (X12_marked_rows_leave_the_query (Some "s3cret") Sample.request
           Sample.fetched Sample.all_good [0; 0]%nat Sample.db0
           Sample.ticketsData 0 Sample.g1 [Sample.t3; Sample.orphan] Sample.t7).
  - sample_reaches.
  - sample_fetched.
  - by_computation.
  - exists "ana@example.org", {| sent_id := "re_1" |}. by split_and!.
  - left.
  - sample_fetched.
Defined.

Lemma X13_witness :
  ∃ l1 t l2 user,
    Sample.ticketsData = l1 ++ t :: l2 ∧
    Forall (λ t', user_id_of t' ≠ Some (ug_id_user Sample.g1)) l1 ∧
    resolve_user t = Some user ∧
    id_user user = ug_id_user Sample.g1 ∧
    ug_name Sample.g1 = name user ∧ ug_email Sample.g1 = email user ∧
    ug_id_card Sample.g1 = id_card user.
Proof.
  apply (X13_first_row_gives_the_columns Sample.ticketsData Sample.g1).
  apply (list_elem_of_lookup_2 _ 0%nat). by_computation.
Defined.

Lemma X15_witness :
  ∃ updates,
    calls (Sample.run Sample.all_good [2; 0; 2]%nat)
    = first_calls Sample.ticketsData ++ updates ∧
    first_calls Sample.ticketsData
    = mjoin (imap (λ i g,
        match usable_email g with
        | Some to => [ {| ev_promise := i; ev_call := CallSend (render_payload g to) |} ]
        | None => []
        end) (groups_of Sample.ticketsData)) ∧
    Forall is_send_call (first_calls Sample.ticketsData) ∧
    Forall is_update_call updates.
Proof.
  apply (X15_sends_precede_updates (Some "s3cret") Sample.request Sample.fetched
           Sample.all_good [2; 0; 2]%nat Sample.db0 Sample.ticketsData).
  sample_reaches.
Defined.

Lemma X16_witness :
  resend_answer (Sample.send_refused 2 Sample.quota) 2
    (render_payload Sample.g3 "eva@example.org") = SendError Sample.quota ∧
  final_db (Sample.run Sample.all_good [0; 2]%nat) !! id_tickets Sample.t7
  = final_db (Sample.run (Sample.send_refused 2 Sample.quota) [2; 0]%nat)
      !! id_tickets Sample.t7.
Proof.
  split; [by_computation|].
  apply (X16_rows_of_a_group_are_isolated (Some "s3cret") Sample.request
           Sample.fetched Sample.ticketsData Sample.db0 Sample.all_good
           (Sample.send_refused 2 Sample.quota) [0; 2]%nat [2; 0]%nat
           0 Sample.g1 Sample.t7).
  - sample_reaches.
  - sample_fetched.
  - by_computation.
  - intros to _. reflexivity.
  - reflexivity.
  - left.
Defined.

Lemma X18_witness :
  groups_of (tickets_of (ug_id_user Sample.g1) Sample.ticketsData) = [Sample.g1].
Proof.
  apply (X18_group_depends_on_own_tickets Sample.ticketsData Sample.g1).
  apply (list_elem_of_lookup_2 _ 0%nat). by_computation.
Defined.
